(** * png_to_icns: the PNG to ICNS converter of [tools/png_to_icns.py]

    The script has two entry points, [create_icns] and [inspect_icns].
    Both are embedded here as programs of a small state-and-exception
    monad over a model of the file system and of standard output.  The
    Pillow image operations and the name chosen by [tempfile.mkdtemp] are
    collaborators, collected in one class; the [icnsutil] container
    object is modelled in the module [ContainerCodec] and in the section
    on [IcnsFile]. *)

From Stdlib Require Import ZArith NArith Lia.
From Stdlib Require Import Strings.Byte Strings.String Strings.Ascii.
From stdpp Require Import base option list gmap strings pretty.
From Equations Require Import Equations.

Open Scope string_scope.
Open Scope list_scope.

(** ** The size table *)

(** [ICON_TYPES]: the tuples [(type_key, size, description)]. *)
Definition ICON_TYPES : list (string * Z * string) :=
  [ ("icp4",   16%Z, "16x16");
    ("icp5",   32%Z, "32x32");
    ("icp6",   64%Z, "64x64");
    ("ic07",  128%Z, "128x128");
    ("ic08",  256%Z, "256x256");
    ("ic09",  512%Z, "512x512");
    ("ic10", 1024%Z, "1024x1024 (512@2x)") ].

Definition type_key_of (e : string * Z * string) : string := e.1.1.
Definition size_of (e : string * Z * string) : Z := e.1.2.
Definition desc_of (e : string * Z * string) : string := e.2.

(** The dict literal [type_info] of [inspect_icns]. *)
Definition type_info : gmap string string :=
  list_to_map
    [ ("icp4", "16x16");
      ("icp5", "32x32");
      ("icp6", "64x64");
      ("ic07", "128x128");
      ("ic08", "256x256");
      ("ic09", "512x512");
      ("ic10", "1024x1024 (512@2x)");
      ("ic11", "32x32 (16@2x)");
      ("ic12", "64x64 (32@2x)");
      ("ic13", "256x256 (128@2x)");
      ("ic14", "512x512 (256@2x)") ].

(** [type_info.get(key, 'unknown')]. *)
Definition type_info_get (key : string) : string :=
  default "unknown" (type_info !! key).

(** The keys of [type_info] that [ICON_TYPES] does not have. *)
Definition retina_keys : list string := ["ic11"; "ic12"; "ic13"; "ic14"].

(** The selection the loop of [create_icns] is specified by:
    every table entry whose dimension is at most [d], in table order. *)
Definition entriesUpTo (d : Z) : list (string * Z * string) :=
  filter (λ e, (size_of e ≤ d)%Z) ICON_TYPES.

(** ** Exceptions, the world, and the monad of the script *)

(** The exceptions that can end a call.  [FileNotFoundError msg] is the
    one the script raises itself, with its message (lines 47 and 114).
    The others come from the libraries and the operating system:
    [NoSuchFile p] is the [FileNotFoundError] of a read at the path [p]
    where nothing exists, and [OSError] stands for the exception of a
    refused write or a refused [mkdtemp], whose class the operating
    system chooses ([PermissionError], the [FileNotFoundError] of a
    missing parent directory, and so on). *)
Inductive Exn : Type :=
  | FileNotFoundError (msg : string)
  | NoSuchFile (path : string)
  | FileExistsError
  | IsADirectoryError
  | OSError
  | ValueError
  | UnidentifiedImageError
  | ImagingError
  | EncoderError
  | OverflowError
  | MalformedHeader
  | TruncatedChunk
  | TrailingBytes.

Inductive result (A : Type) : Type :=
  | Ok (a : A)
  | Raise (e : Exn).
Arguments Ok {A} a.
Arguments Raise {A} e.

(** What the script prints, one constructor per [print] call site. *)
Inductive Line : Type :=
  | Loading (path : string)
  | SourceSize (w h : Z)
  | WarningSmall
  | Added (type_key desc : string)
  | Created (path : string)
  | TotalSizes (n : nat)
  | FileSize (bytes : nat)
  | Inspecting (path : string)
  | Rule
  | Entry (key desc : string) (bytes : nat)
  | TotalEntries (n : nat).

(** Regular files by path, directories, and the lines printed so far. *)
Record World : Type := mkWorld {
  files : gmap string (list byte);
  dirs : gset string;
  stdout : list Line
}.

Definition M (A : Type) : Type := World → result A * World.

Global Instance M_ret : MRet M := λ A a w, (Ok a, w).
Global Instance M_bind : MBind M := λ A B f m w,
  match m w with
  | (Ok a, w') => f a w'
  | (Raise e, w') => (Raise e, w')
  end.

Definition raise {A} (e : Exn) : M A := λ w, (Raise e, w).

(** [try: body finally: cleanup], for a cleanup that cannot raise. *)
Definition try_finally {A} (body : M A) (cleanup : World → World) : M A :=
  λ w, let '(r, w') := body w in (r, cleanup w').

(** [print(...)] on a standard output that accepts every line: a stream
    that is closed, or that cannot encode the text, is outside the
    model. *)
Definition print (l : Line) : M unit :=
  λ w, (Ok (), mkWorld (files w) (dirs w) (stdout w ++ [l])).

(** [for x in xs: body], threading the loop-carried variables [acc]. *)
Fixpoint for_each {A B} (xs : list A) (body : A → B → M B) (acc : B) : M B :=
  match xs with
  | [] => mret acc
  | x :: xs' => acc' ← body x acc; for_each xs' body acc'
  end.

(** ** Predicates on computations *)

(** A computation is oblivious of standard output when its result and
    its effect on files and directories do not depend on the lines
    printed before it, and it only appends lines. *)
Definition oblivious {A} (m : M A) : Prop :=
  ∀ f d, ∃ r f' d' delta,
    ∀ o, m (mkWorld f d o) = (r, mkWorld f' d' (o ++ delta)).

(** From [w] to [w'] the directories are the same and every file that
    exists in [w'] existed in [w] or has a path in [P]. *)
Definition writes_within (P : string → Prop) (w w' : World) : Prop :=
  dirs w' = dirs w
  ∧ ∀ p, is_Some (files w' !! p) → is_Some (files w !! p) ∨ P p.

(** A computation that stays within [P], whatever its outcome. *)
Definition stays_within (P : string → Prop) {A} (m : M A) : Prop :=
  ∀ w, writes_within P w (m w).2.

(** ** pathlib *)

(** [s.rpartition(sep)] when [sep] occurs in [s]: the text before and
    after the last occurrence. *)
Fixpoint rsplit (sep : ascii) (s : string) : option (string * string) :=
  match s with
  | EmptyString => None
  | String c s' =>
      match rsplit sep s' with
      | Some (a, b) => Some (String c a, b)
      | None => if Ascii.eqb c sep then Some (EmptyString, s') else None
      end
  end.

(** [s.split(sep)]. *)
Fixpoint split_on (sep : ascii) (s : string) : list string :=
  match s with
  | EmptyString => [EmptyString]
  | String c s' =>
      if Ascii.eqb c sep then EmptyString :: split_on sep s'
      else match split_on sep s' with
           | x :: xs => String c x :: xs
           | [] => [String c EmptyString]
           end
  end.

(** [sep.join(parts)]. *)
Fixpoint join_with (sep : string) (parts : list string) : string :=
  match parts with
  | [] => ""
  | [x] => x
  | x :: xs => x +:+ sep +:+ join_with sep xs
  end.

(** The root of a POSIX path: two slashes when the text starts with
    exactly two, one slash when it starts with one or with more than
    two, nothing otherwise. *)
Definition path_root (s : string) : string :=
  if String.prefix "///" s then "/"
  else if String.prefix "//" s then "//"
  else if String.prefix "/" s then "/"
  else "".

(** [str(Path(s))] on a POSIX system: empty and "." components are
    dropped, the others are joined by single slashes after the root, and
    a path with nothing left is ".". *)
Definition Path_str (s : string) : string :=
  let parts := filter (λ x, x ≠ "" ∧ x ≠ ".") (split_on "/"%char s) in
  let text := path_root s +:+ join_with "/" parts in
  if String.eqb text "" then "." else text.

(** The parent part of a path (with its trailing slash) and [PurePath.name]. *)
Definition split_name (p : string) : string * string :=
  match rsplit "/" p with
  | Some (parent, name) => (parent +:+ "/", name)
  | None => ("", if String.eqb p "." then "" else p)
  end.

(** [PurePath.stem]: the name without its suffix, where the suffix starts
    at the last dot unless that dot is the first or the last character. *)
Definition stem (name : string) : string :=
  match rsplit "." name with
  | Some (s, ext) =>
      if String.eqb s "" || String.eqb ext "" then name else s
  | None => name
  end.

(** [PurePath.with_suffix(suffix)] for a well-formed suffix, as ".icns"
    is; raises [ValueError] on a path with an empty name. *)
Definition with_suffix (p suffix : string) : result string :=
  let '(parent, name) := split_name p in
  if String.eqb name "" then Raise ValueError
  else Ok (parent +:+ stem name +:+ suffix).

(** The character [c] occurs in [s]. *)
Fixpoint contains (c : ascii) (s : string) : bool :=
  match s with
  | EmptyString => false
  | String c' s' => Ascii.eqb c' c || contains c s'
  end.

(** [ext] is a file extension proper: not empty, no dot, no slash. *)
Definition is_extension (ext : string) : Prop :=
  ext ≠ "" ∧ contains "." ext = false ∧ contains "/" ext = false.

(** The last component of [base] is not empty. *)
Definition has_name (base : string) : Prop :=
  match rsplit "/" base with
  | Some (_, name) => name ≠ ""
  | None => base ≠ ""
  end.

(** [new] is [name] with its suffix replaced by [suffix]; the suffix of
    a name starts at its last dot, and a name has none when it has no
    dot or when its last dot is its first or its last character. *)
Inductive replaces_suffix (suffix : string) : string → string → Prop :=
  | replace_proper nb ext :
      nb ≠ "" → ext ≠ "" → contains "." ext = false →
      replaces_suffix suffix (nb +:+ "." +:+ ext) (nb +:+ suffix)
  | append_no_dot name :
      contains "." name = false →
      replaces_suffix suffix name (name +:+ suffix)
  | append_leading_dot ext :
      contains "." ext = false →
      replaces_suffix suffix ("." +:+ ext) ("." +:+ ext +:+ suffix)
  | append_trailing_dot nb :
      replaces_suffix suffix (nb +:+ ".") (nb +:+ "." +:+ suffix).

(** [q] is the path [p] with the suffix of its last component replaced
    by [suffix]: the directory part, up to and including the last slash,
    is kept as it is. *)
Definition suffix_replaced (suffix p q : string) : Prop :=
  ∃ parent name new,
    p = parent +:+ name
    ∧ (parent = "" ∨ ∃ d, parent = d +:+ "/")
    ∧ contains "/" name = false
    ∧ name ≠ ""
    ∧ replaces_suffix suffix name new
    ∧ q = parent +:+ new.


(** [temp_dir / name]. *)
Definition joinpath (d name : string) : string := d +:+ "/" +:+ name.

(** [p] lies inside the directory [d]. *)
Definition under (d p : string) : bool := String.prefix (d +:+ "/") p.

(** ** The file system *)

(** [Image.Resampling], the filters of Pillow. *)
Inductive Resampling : Type :=
  NEAREST | BOX | BILINEAR | HAMMING | BICUBIC | LANCZOS.

(** The collaborators of the script: Pillow, the name [tempfile.mkdtemp]
    picks, and whether the operating system accepts a write at a path. *)
Class Collaborators : Type := {
  Image : Type;
  img_mode : Image → string;
  img_size : Image → Z * Z;
  (** [Image.open] on the bytes of a file; [None] when Pillow raises. *)
  Image_open : list byte → option Image;
  img_convert : Image → string → Image;
  (** [img.resize(size, filter)]; [None] when Pillow raises. *)
  img_resize : Image → Z * Z → Resampling → option Image;
  (** The bytes [img.save(path, format='PNG')] writes; [None] when the
      encoder raises. *)
  png_bytes : Image → option (list byte);
  tmp_candidate : option string;
  writable : string → bool
}.

Section FileSystem.
Context `{Collaborators}.

Definition path_exists (p : string) (w : World) : bool :=
  bool_decide (is_Some (files w !! p)) || bool_decide (p ∈ dirs w).

(** [Path.exists()]. *)
Definition exists_ (p : string) : M bool := λ w, (Ok (path_exists p w), w).

(** [open(p, 'rb').read()]. *)
Definition read_file (p : string) : M (list byte) := λ w,
  match files w !! p with
  | Some b => (Ok b, w)
  | None =>
      if bool_decide (p ∈ dirs w) then (Raise IsADirectoryError, w)
      else (Raise (NoSuchFile p), w)
  end.

(** [open(p, 'wb').write(b)]; [writable p] tells whether the operating
    system accepts the write: the parent directory exists, the
    permissions allow it, and so on. *)
Definition write_file (p : string) (b : list byte) : M unit := λ w,
  if bool_decide (p ∈ dirs w) then (Raise IsADirectoryError, w)
  else if writable p then
    (Ok (), mkWorld (<[p := b]> (files w)) (dirs w) (stdout w))
  else (Raise OSError, w).

(** [p.stat().st_size]. *)
Definition stat_size (p : string) : M nat := λ w,
  match files w !! p with
  | Some b => (Ok (length b), w)
  | None => (Raise (NoSuchFile p), w)
  end.

(** [tempfile.mkdtemp()]: a directory that did not exist before. *)
Definition mkdtemp : M string := λ w,
  match tmp_candidate with
  | None => (Raise OSError, w)
  | Some d =>
      if path_exists d w then (Raise FileExistsError, w)
      else (Ok d, mkWorld (files w) ({[d]} ∪ dirs w) (stdout w))
  end.

(** [shutil.rmtree(d, ignore_errors=True)]: never raises; the directory
    and everything inside it are gone afterwards. *)
Definition rmtree (d : string) (w : World) : World :=
  mkWorld (filter (λ kv, ¬ under d kv.1) (files w))
          (filter (λ p, p ≠ d ∧ ¬ under d p) (dirs w))
          (stdout w).

End FileSystem.

(** ** The container format

    [icnsutil] is a third-party package; the script only calls it.  Its
    serializer and parser are modelled here from the specification of the
    container: a header (magic tag and total byte length) followed by
    chunks, each a 4-character tag, a big-endian length field and the
    payload. *)

(** Modelled from the spec: the magic tag and the width in bytes of the
    length fields, which the specification leaves to the documented
    format. *)
Class ContainerFormat : Type := {
  magic : list byte;
  length_field_size : nat
}.

Global Instance byte_eq_decision : EqDecision byte := Byte.byte_eq_dec.

Module ContainerCodec.
Section Codec.
Context `{ContainerFormat}.

(** Modelled from the spec: a type identifier is a 4-character tag. *)
Definition tag_size : nat := 4.

(** Modelled from the spec: the header is the magic tag and the total
    byte length. *)
Definition header_size : nat := length magic + length_field_size.

(** The byte with value [n mod 256]. *)
Definition byte_of_N (n : N) : byte :=
  default "000"%byte (Byte.of_N (n mod 256)).

(** Modelled from the spec: a length as a big-endian unsigned integer of
    [w] bytes. *)
Fixpoint be_bytes (w : nat) (n : N) : list byte :=
  match w with
  | O => []
  | S w' => be_bytes w' (n / 256) ++ [byte_of_N n]
  end.

(** Modelled from the spec: the bytes of a length field read as a
    big-endian unsigned integer. *)
Definition be_value (bs : list byte) : N :=
  foldl (λ acc b, acc * 256 + Byte.to_N b)%N 0%N bs.

(** Modelled from the spec: a length fits the fixed-size length field. *)
Definition representable (n : nat) : bool :=
  (N.of_nat n <? 256 ^ N.of_nat length_field_size)%N.

(** Modelled from the spec: a chunk is its tag, the byte count of its
    payload, and the payload. *)
Definition chunk_bytes (c : string * list byte) : list byte :=
  list_byte_of_string c.1
    ++ be_bytes length_field_size (N.of_nat (length c.2)) ++ c.2.

(** Modelled from the spec: the declared total length is the header size
    plus, for each chunk, tag size + length-field size + payload length. *)
Definition total_length (chunks : list (string * list byte)) : nat :=
  header_size
    + sum_list ((λ c, tag_size + length_field_size + length c.2) <$> chunks).

(** Modelled from the spec: the serializer behind [IcnsFile.write];
    [None] when the total length does not fit its field. *)
Definition encode (chunks : list (string * list byte)) : option (list byte) :=
  if representable (total_length chunks) then
    Some (magic
            ++ be_bytes length_field_size (N.of_nat (total_length chunks))
            ++ concat (chunk_bytes <$> chunks))
  else None.

(** Modelled from the spec: the chunk loop of the parser behind
    [IcnsFile(path)].  At each chunk boundary: the end of the buffer ends
    the loop; too few bytes for a tag and a length field are trailing
    bytes; fewer payload bytes than the declared length are a truncated
    chunk. *)
Equations? decode_chunks (buf : list byte)
  : result (list (string * list byte)) by wf (length buf) lt :=
decode_chunks [] := Ok [];
decode_chunks (b :: bs)
  with decide (length (b :: bs) < tag_size + length_field_size) := {
  | left _ := Raise TrailingBytes
  | right _
      with decide
             (N.of_nat (length (drop (tag_size + length_field_size) (b :: bs)))
              < be_value (take length_field_size (drop tag_size (b :: bs))))%N := {
      | left _ := Raise TruncatedChunk
      | right _
          with decode_chunks
                 (drop (N.to_nat
                          (be_value
                             (take length_field_size (drop tag_size (b :: bs)))))
                       (drop (tag_size + length_field_size) (b :: bs))) := {
          | Ok cs :=
              Ok ((string_of_list_byte (take tag_size (b :: bs)),
                   take (N.to_nat
                           (be_value
                              (take length_field_size
                                 (drop tag_size (b :: bs)))))
                        (drop (tag_size + length_field_size) (b :: bs)))
                    :: cs)
          | Raise e := Raise e } } }.
Proof.
  rewrite !length_drop. unfold tag_size in *. simpl in *. lia.
Qed.

(** Modelled from the spec: the parser behind [IcnsFile(path)].  The
    header is rejected when the magic tag does not match or the declared
    length differs from the length of the buffer. *)
Definition decode (buf : list byte) : result (list (string * list byte)) :=
  if decide (length buf < header_size) then Raise MalformedHeader
  else if decide (take (length magic) buf ≠ magic) then Raise MalformedHeader
  else if decide (be_value (take length_field_size (drop (length magic) buf))
                  ≠ N.of_nat (length buf))
  then Raise MalformedHeader
  else decode_chunks (drop header_size buf).

End Codec.
End ContainerCodec.

(** ** icnsutil.IcnsFile *)

(** [dict[k] = v] on an insertion-ordered dict. *)
Fixpoint dict_set {V} (k : string) (v : V) (d : list (string * V))
  : list (string * V) :=
  match d with
  | [] => [(k, v)]
  | (k', v') :: d' =>
      if decide (k' = k) then (k, v) :: d' else (k', v') :: dict_set k v d'
  end.

(** Modelled from the spec: the container object of [icnsutil], whose
    [media] attribute is a dict from type key to payload bytes. *)
Record IcnsFile : Type := mkIcnsFile {
  media : list (string * list byte)
}.

Section Script.
Context `{Collaborators} `{ContainerFormat}.

(** [icnsutil.IcnsFile()]. *)
Definition IcnsFile_new : IcnsFile := mkIcnsFile [].

(** Modelled from the spec: [icns.add_media(key=key, file=file)] stores
    the bytes of [file] under [key]. *)
Definition add_media (icns : IcnsFile) (key file : string) : M IcnsFile :=
  data ← read_file file;
  mret (mkIcnsFile (dict_set key data (media icns))).

(** Modelled from the spec: [icns.write(fname)] serializes the media in
    dict order and writes the file. *)
Definition IcnsFile_write (icns : IcnsFile) (fname : string) : M unit :=
  match ContainerCodec.encode (media icns) with
  | Some b => write_file fname b
  | None => raise OverflowError
  end.

(** Modelled from the spec: [icnsutil.IcnsFile(path)] parses the file
    and stores each chunk in the dict. *)
Definition IcnsFile_open (path : string) : M IcnsFile :=
  b ← read_file path;
  match ContainerCodec.decode b with
  | Ok chunks =>
      mret (mkIcnsFile (foldl (λ d c, dict_set c.1 c.2 d) [] chunks))
  | Raise e => raise e
  end.

(** *** create_icns *)

(** [Image.open(path)]. *)
Definition Image_open_path (path : string) : M Image :=
  b ← read_file path;
  match Image_open b with
  | Some img => mret img
  | None => raise UnidentifiedImageError
  end.

(** [source_img.resize(size, filter)]. *)
Definition resize (img : Image) (size : Z * Z) (filter : Resampling)
  : M Image :=
  match img_resize img size filter with
  | Some r => mret r
  | None => raise ImagingError
  end.

(** [img.save(path, format='PNG')]. *)
Definition save_png (img : Image) (path : string) : M unit :=
  match png_bytes img with
  | Some b => write_file path b
  | None => raise EncoderError
  end.

(** [f"icon_{size}x{size}.png"]. *)
Definition icon_filename (size : Z) : string :=
  "icon_" +:+ pretty size +:+ "x" +:+ pretty size +:+ ".png".

(** Lines 54 to 63: load the source image and make it RGBA. *)
Definition load_source (input_path : string) : M (Image * (Z * Z)) :=
  print (Loading input_path);;
  source_img ← Image_open_path input_path;
  let source_img :=
    if decide (img_mode source_img ≠ "RGBA")
    then img_convert source_img "RGBA" else source_img in
  let original_size := img_size source_img in
  print (SourceSize original_size.1 original_size.2);;
  mret (source_img, original_size).

(** Lines 65 and 66. *)
Definition warn_if_small (original_size : Z * Z) : M unit :=
  if decide (original_size.1 < 512 ∨ original_size.2 < 512)%Z
  then print WarningSmall else mret ().

(** The body of the loop of lines 77 to 89, on the loop-carried
    [icns] and [sizes_added]. *)
Definition add_icon_type (source_img : Image) (original_size : Z * Z)
    (temp_dir : string) (entry : string * Z * string)
    (acc : IcnsFile * list string) : M (IcnsFile * list string) :=
  let '(type_key, size, desc) := entry in
  let '(icns, sizes_added) := acc in
  if decide (size ≤ Z.max original_size.1 original_size.2)%Z then
    resized ← resize source_img (size, size) LANCZOS;
    let temp_png := joinpath temp_dir (icon_filename size) in
    save_png resized temp_png;;
    icns ← add_media icns type_key temp_png;
    let sizes_added := sizes_added ++ [desc] in
    print (Added type_key desc);;
    mret (icns, sizes_added)
  else mret (icns, sizes_added).

(** Lines 73 to 89: the container and the loop over [ICON_TYPES]. *)
Definition generate_sizes (source_img : Image) (original_size : Z * Z)
    (temp_dir : string) : M (IcnsFile * list string) :=
  for_each ICON_TYPES (add_icon_type source_img original_size temp_dir)
    (IcnsFile_new, []).

(** Lines 73 to 100: the body of the [try] block. *)
Definition encode_body (source_img : Image) (original_size : Z * Z)
    (temp_dir output_path : string) : M string :=
  '(icns, sizes_added) ← generate_sizes source_img original_size temp_dir;
  IcnsFile_write icns output_path;;
  print (Created output_path);;
  print (TotalSizes (length sizes_added));;
  file_size ← stat_size output_path;
  print (FileSize file_size);;
  mret output_path.

(** Lines 68 to 104: the scratch directory, the [try] block and its
    [finally]. *)
Definition build_icns (source_img : Image) (original_size : Z * Z)
    (output_path : string) : M string :=
  temp_dir ← mkdtemp;
  try_finally (encode_body source_img original_size temp_dir output_path)
              (rmtree temp_dir).

(** Lines 49 to 52, on the [Path] of line 44; the result is the text of
    the output [Path], as lines 92 and 100 use it. *)
Definition resolve_output (input_path : string) (output_path : option string)
  : M string :=
  match output_path with
  | None =>
      match with_suffix input_path ".icns" with
      | Ok p => mret p
      | Raise e => raise e
      end
  | Some p => mret (Path_str p)
  end.

(** Lines 33 to 104.  Line 44 rebinds [input_path] to its [Path]: the
    message of line 47, the line printed at line 54 and the file opened
    at line 55 all use the spelling of [Path]. *)
Definition create_icns (input_path : string) (output_path : option string)
  : M string :=
  let input_path := Path_str input_path in
  found ← exists_ input_path;
  if negb found then
    raise (FileNotFoundError ("Input file not found: " +:+ input_path))
  else
  output_path ← resolve_output input_path output_path;
  '(source_img, original_size) ← load_source input_path;
  warn_if_small original_size;;
  build_icns source_img original_size output_path.

(** The chunk the loop is specified to add for a table entry: the PNG
    bytes of the source resampled to the entry's square size, under the
    entry's type key. *)
Definition expected_chunk (source_img : Image) (e : string * Z * string)
  : option (string * list byte) :=
  r ← img_resize source_img (size_of e, size_of e) LANCZOS;
  b ← png_bytes r;
  Some (type_key_of e, b).

(** *** inspect_icns *)

(** Lines 136 to 138: one line per entry of [icns.media]. *)
Definition report_entries (icns : IcnsFile) : M unit :=
  for_each (media icns)
    (λ '(key, data) _,
       let desc := type_info_get key in
       print (Entry key desc (length data)))
    ().

(** Lines 107 to 141.  Line 111 rebinds [icns_path] to its [Path]. *)
Definition inspect_icns (icns_path : string) : M unit :=
  let icns_path := Path_str icns_path in
  found ← exists_ icns_path;
  if negb found then
    raise (FileNotFoundError ("File not found: " +:+ icns_path))
  else
  print (Inspecting icns_path);;
  print Rule;;
  icns ← IcnsFile_open icns_path;
  report_entries icns;;
  print Rule;;
  print (TotalEntries (length (media icns))).

End Script.

(** ** A concrete instance, for running the script

    Images carry their mode and size only; an image file holds its width
    and height in two bytes each; saving writes the same four bytes.  The
    container has the magic tag [icns] and four-byte length fields. *)
Module Toy.

Definition two_bytes (n : Z) : list byte :=
  [ContainerCodec.byte_of_N (Z.to_N n / 256); ContainerCodec.byte_of_N (Z.to_N n)].

Definition toy_open (b : list byte) : option (string * (Z * Z)) :=
  match b with
  | [a; b; c; d] =>
      Some ("RGB",
            (Z.of_N (Byte.to_N a * 256 + Byte.to_N b),
             Z.of_N (Byte.to_N c * 256 + Byte.to_N d)))
  | _ => None
  end.

(** The operating system of the examples accepts a write in the working
    directory, in the scratch directory and in the directories [ds]. *)
Definition toy_writable (ds : list string) (p : string) : bool :=
  match rsplit "/" p with
  | None => true
  | Some (d, _) => existsb (String.eqb d) ("/tmp/tmpk3" :: ds)
  end.

Definition pillow_in (ds : list string) : Collaborators := {|
  Image := string * (Z * Z);
  img_mode := fst;
  img_size := snd;
  Image_open := toy_open;
  img_convert img mode := (mode, img.2);
  img_resize img size _ := Some (img.1, size);
  png_bytes img := Some (two_bytes img.2.1 ++ two_bytes img.2.2);
  tmp_candidate := Some "/tmp/tmpk3";
  writable := toy_writable ds
|}.

Definition pillow : Collaborators := pillow_in [].

(** The same collaborators with a resampler that raises above 64 pixels. *)
Definition failing_pillow : Collaborators := {|
  Image := string * (Z * Z);
  img_mode := fst;
  img_size := snd;
  Image_open := toy_open;
  img_convert img mode := (mode, img.2);
  img_resize img size _ :=
    if decide (size.1 ≤ 64)%Z then Some (img.1, size) else None;
  png_bytes img := Some (two_bytes img.2.1 ++ two_bytes img.2.2);
  tmp_candidate := Some "/tmp/tmpk3";
  writable := toy_writable []
|}.

Definition icns_format : ContainerFormat :=
  {| magic := list_byte_of_string "icns"; length_field_size := 4 |}.

(** A world with one image file, [logo.png], of the given size. *)
Definition world (w h : Z) : World :=
  mkWorld {[ "logo.png" := two_bytes w ++ two_bytes h ]} ∅ [].


End Toy.

(** ** Ascending tables *)

(** The table entries are in ascending order of size. *)
Fixpoint ascending (l : list (string * Z * string)) : Prop :=
  match l with
  | [] => True
  | e :: l' => Forall (λ e', (size_of e ≤ size_of e')%Z) l' ∧ ascending l'
  end.

(** * Properties *)

(** ** Running the monad *)

Section MonadLaws.
Context {A B : Type}.
Implicit Types (m : M A) (f : A → M B).

Lemma bind_run m f w :
  (m ≫= f) w =
  match m w with
  | (Ok a, w') => f a w'
  | (Raise e, w') => (Raise e, w')
  end.
Proof. reflexivity. Qed.

Lemma bind_Ok m f w a w1 : m w = (Ok a, w1) → (m ≫= f) w = f a w1.
Proof. intros Hm. rewrite bind_run, Hm. reflexivity. Qed.

Lemma bind_Raise m f w e w1 :
  m w = (Raise e, w1) → (m ≫= f) w = (Raise e, w1).
Proof. intros Hm. rewrite bind_run, Hm. reflexivity. Qed.

Lemma bind_Ok_inv m f w b w2 :
  (m ≫= f) w = (Ok b, w2) → ∃ a w1, m w = (Ok a, w1) ∧ f a w1 = (Ok b, w2).
Proof.
  rewrite bind_run. destruct (m w) as [[a|e] w1]; [eauto | discriminate].
Qed.

End MonadLaws.

(** ** The ordered dict *)

Lemma dict_set_fresh {V} (k : string) (v : V) (d : list (string * V)) :
  k ∉ d.*1 → dict_set k v d = d ++ [(k, v)].
Proof.
  induction d as [|[k' v'] d IH]; simpl; [done|].
  intros Hk. apply not_elem_of_cons in Hk as [Hne Hk].
  destruct (decide (k' = k)); [congruence|]. by rewrite IH.
Qed.

Lemma dict_set_keys_NoDup {V} (k : string) (v : V) (d : list (string * V)) :
  NoDup d.*1 → NoDup (dict_set k v d).*1.
Proof.
  induction d as [|[k' v'] d IH]; simpl.
  - intros _. apply NoDup_singleton.
  - intros [Hk' Hd]%NoDup_cons. destruct (decide (k' = k)) as [->|Hne]; simpl.
    + by apply NoDup_cons.
    + apply NoDup_cons. split; [|by apply IH].
      clear IH Hd. induction d as [|[k2 v2] d IHd]; simpl in *.
      * by apply not_elem_of_cons.
      * apply not_elem_of_cons in Hk' as [Hne2 Hk'].
        destruct (decide (k2 = k)); simpl; apply not_elem_of_cons; auto.
Qed.

(** ** The loop of [create_icns] *)

Section Loop.
Context `{Collaborators} `{ContainerFormat}.
Implicit Types (icns : IcnsFile) (added : list string) (w : World).

(** One iteration that completes: either the entry is skipped, or its
    chunk is stored under its key and its description recorded. *)
Lemma add_icon_type_Ok source_img original_size temp_dir e icns added w
    icns' added' w' :
  add_icon_type source_img original_size temp_dir e (icns, added) w
    = (Ok (icns', added'), w') →
  if decide (size_of e ≤ Z.max original_size.1 original_size.2)%Z then
    ∃ c, expected_chunk source_img e = Some c
         ∧ c.1 = type_key_of e
         ∧ media icns' = dict_set c.1 c.2 (media icns)
         ∧ added' = added ++ [desc_of e]
         ∧ stdout w' = stdout w ++ [Added (type_key_of e) (desc_of e)]
  else icns' = icns ∧ added' = added ∧ w' = w.
Proof.
  destruct e as [[type_key size] desc].
  unfold add_icon_type, size_of, type_key_of, desc_of; simpl.
  destruct (decide (size ≤ Z.max original_size.1 original_size.2)%Z);
    [|by intros [= -> -> ->]].
  unfold resize, save_png. rewrite bind_run.
  destruct (img_resize source_img (size, size) LANCZOS) as [r|] eqn:Hr;
    [simpl|discriminate].
  rewrite bind_run. destruct (png_bytes r) as [b|] eqn:Hb;
    [simpl|discriminate].
  unfold write_file. simpl.
  destruct (bool_decide _); [discriminate|].
  destruct (writable _); [|discriminate].
  unfold add_media, read_file. rewrite !bind_run. simpl.
  rewrite lookup_insert_eq. simpl.
  intros [= <- <- <-]. exists (type_key, b).
  unfold expected_chunk, size_of, type_key_of. simpl.
  rewrite Hr. simpl. rewrite Hb. done.
Qed.

(** The loop over any part [l] of the table whose keys are not stored
    yet: the chunks of the selected entries are appended in order. *)
Lemma for_each_add_icon_type source_img original_size temp_dir
    (l : list (string * Z * string)) :
  ∀ icns added w icns' added' w',
    NoDup (type_key_of <$> l) →
    (∀ k, k ∈ type_key_of <$> l → k ∉ (media icns).*1) →
    for_each l (add_icon_type source_img original_size temp_dir)
      (icns, added) w = (Ok (icns', added'), w') →
    let sel :=
      filter (λ e, (size_of e ≤ Z.max original_size.1 original_size.2)%Z) l in
    ∃ chunks,
      Forall2 (λ e c, expected_chunk source_img e = Some c) sel chunks
      ∧ media icns' = media icns ++ chunks
      ∧ added' = added ++ (desc_of <$> sel)
      ∧ stdout w' =
          stdout w ++ ((λ e, Added (type_key_of e) (desc_of e)) <$> sel).
Proof.
  induction l as [|e l IH]; intros icns added w icns' added' w' Hnd Hfresh.
  - simpl. intros [= <- <- <-]. exists []. rewrite !app_nil_r.
    split; [constructor|done].
  - simpl for_each. intros Hrun.
    apply bind_Ok_inv in Hrun as ([icns1 added1] & w1 & Hstep & Hrest).
    apply add_icon_type_Ok in Hstep.
    rewrite fmap_cons in Hnd. apply NoDup_cons in Hnd as [Hk Hnd].
    rewrite filter_cons.
    destruct (decide (size_of e ≤ Z.max original_size.1 original_size.2)%Z).
    + destruct Hstep as (c & Hc & Hkey & Hmedia & Hadded & Hout).
      rewrite dict_set_fresh in Hmedia
        by (rewrite Hkey; apply Hfresh; rewrite fmap_cons; left).
      apply IH in Hrest as (chunks & Hall & Hm & Ha & Ho); [|done|].
      * exists (c :: chunks). rewrite Hm, Ha, Ho, Hmedia, Hadded, Hout.
        rewrite !fmap_cons, <- !app_assoc. simpl.
        destruct c; split; [by constructor|done].
      * intros k Hkl. rewrite Hmedia, fmap_app, Hkey. simpl.
        intros [Hin|Hin%list_elem_of_singleton]%elem_of_app.
        -- eapply Hfresh; [right; exact Hkl|done].
        -- congruence.
    + destruct Hstep as (-> & -> & ->).
      apply IH in Hrest; [done|done|].
      intros k Hkl. apply Hfresh. by right.
Qed.

Lemma ICON_TYPES_keys_NoDup : NoDup (type_key_of <$> ICON_TYPES).
Proof. apply (bool_decide_unpack _). vm_compute. exact I. Qed.

Lemma generate_sizes_Ok source_img original_size temp_dir w icns added w' :
  generate_sizes source_img original_size temp_dir w
    = (Ok (icns, added), w') →
  let sel := entriesUpTo (Z.max original_size.1 original_size.2) in
  Forall2 (λ e c, expected_chunk source_img e = Some c) sel (media icns)
  ∧ added = desc_of <$> sel
  ∧ stdout w' = stdout w ++ ((λ e, Added (type_key_of e) (desc_of e)) <$> sel).
Proof.
  intros Hrun. apply for_each_add_icon_type in Hrun.
  - destruct Hrun as (chunks & Hall & Hm & Ha & Ho). simpl in Hm, Ha.
    subst chunks. done.
  - apply ICON_TYPES_keys_NoDup.
  - intros k _. simpl. apply not_elem_of_nil.
Qed.

Lemma expected_chunks_keys source_img sel chunks :
  Forall2 (λ e c, expected_chunk source_img e = Some c) sel chunks →
  chunks.*1 = type_key_of <$> sel.
Proof.
  induction 1 as [|e c sel chunks Hc _ IH]; [done|].
  rewrite !fmap_cons, IH. f_equal.
  unfold expected_chunk in Hc.
  destruct (img_resize _ _ _); simpl in Hc; [|done].
  destruct (png_bytes _); simpl in Hc; [|done].
  by injection Hc as <-.
Qed.

(** C1: a run of the loop that completes has stored exactly one chunk
    for each table entry whose size is at most the larger source
    dimension, in table order: the keys of the container, the payloads,
    the recorded descriptions and the printed lines all follow
    [entriesUpTo].  A 16x16 source gives the single key icp4, a
    1024x1024 source all seven keys. *)
Theorem encode_appends_entriesUpTo source_img (sw sh : Z) temp_dir w
    icns added w' :
  generate_sizes source_img (sw, sh) temp_dir w = (Ok (icns, added), w') →
  let sel := entriesUpTo (Z.max sw sh) in
  (media icns).*1 = type_key_of <$> sel
  ∧ Forall2 (λ e c, expected_chunk source_img e = Some c) sel (media icns)
  ∧ added = desc_of <$> sel
  ∧ stdout w' = stdout w ++ ((λ e, Added (type_key_of e) (desc_of e)) <$> sel)
  ∧ (sw = 16%Z → sh = 16%Z → (media icns).*1 = ["icp4"])
  ∧ (sw = 1024%Z → sh = 1024%Z →
     (media icns).*1
       = ["icp4"; "icp5"; "icp6"; "ic07"; "ic08"; "ic09"; "ic10"]).
Proof.
  intros Hrun sel. apply generate_sizes_Ok in Hrun as (Hall & Ha & Ho).
  simpl in Hall, Ha, Ho. fold sel in Hall, Ha, Ho.
  pose proof (expected_chunks_keys _ _ _ Hall) as Hkeys.
  repeat split; try done.
  - intros -> ->. rewrite Hkeys. reflexivity.
  - intros -> ->. rewrite Hkeys. reflexivity.
Qed.

End Loop.

Lemma encode_appends_entriesUpTo_witness :
  ∃ icns added w',
    @generate_sizes Toy.pillow ("RGBA", (16, 16)%Z) (16, 16)%Z "/tmp/tmpk3"
      (Toy.world 16 16) = (Ok (icns, added), w')
    ∧ (media icns).*1 = ["icp4"].
Proof.
  eexists _, _, _. split; [vm_compute; reflexivity|].
  eapply (@encode_appends_entriesUpTo Toy.pillow ("RGBA", (16, 16)%Z)
            16%Z 16%Z "/tmp/tmpk3" (Toy.world 16 16)); [|done..].
  vm_compute. reflexivity.
Defined.


(** ** Distinct type keys *)

Lemma ICON_TYPES_keys_length :
  Forall (λ e, String.length (type_key_of e) = 4) ICON_TYPES.
Proof. repeat constructor. Qed.

(** C8: the seven table entries have pairwise distinct keys of four
    characters, and a completed run of the loop leaves a container whose
    keys are pairwise distinct; no [add_media] call replaced an earlier
    chunk, since the container holds as many chunks as calls were made. *)
Theorem encode_keys_distinct `{Collaborators} source_img original_size
    temp_dir w icns added w' :
  generate_sizes source_img original_size temp_dir w
    = (Ok (icns, added), w') →
  length ICON_TYPES = 7
  ∧ NoDup (type_key_of <$> ICON_TYPES)
  ∧ Forall (λ e, String.length (type_key_of e) = 4) ICON_TYPES
  ∧ NoDup (media icns).*1
  ∧ length (media icns) = length added.
Proof.
  intros Hrun. apply generate_sizes_Ok in Hrun as (Hall & Ha & _).
  simpl in Hall, Ha.
  split; [reflexivity|]. split; [apply ICON_TYPES_keys_NoDup|].
  split; [apply ICON_TYPES_keys_length|]. split.
  - rewrite (expected_chunks_keys _ _ _ Hall).
    eapply sublist_NoDup; [apply ICON_TYPES_keys_NoDup|].
    apply fmap_sublist, sublist_filter.
  - rewrite Ha, length_fmap. symmetry. exact (Forall2_length _ _ _ Hall).
Qed.

Lemma encode_keys_distinct_witness :
  ∃ icns added w',
    @generate_sizes Toy.pillow ("RGBA", (1024, 1024)%Z) (1024, 1024)%Z
      "/tmp/tmpk3" (Toy.world 1024 1024) = (Ok (icns, added), w')
    ∧ NoDup (media icns).*1 ∧ length (media icns) = 7.
Proof.
  eexists _, _, _. split; [vm_compute; reflexivity|].
  split.
  - eapply (@encode_keys_distinct Toy.pillow ("RGBA", (1024, 1024)%Z)
              (1024, 1024)%Z "/tmp/tmpk3" (Toy.world 1024 1024)).
    vm_compute. reflexivity.
  - reflexivity.
Defined.

(** ** The label table of [inspect_icns] *)

(** C9: the label table of [inspect_icns] extends the table of
    [create_icns]: every entry of [ICON_TYPES] is in it with the same
    description; the retina keys ic11 to ic14 are in it with descriptive
    labels, not the "unknown" default, and are not keys of [ICON_TYPES];
    and no completed run of the loop stores a chunk under one of them. *)
Theorem inspect_table_extends_encode_table `{Collaborators} :
  (∀ e, e ∈ ICON_TYPES → type_info !! type_key_of e = Some (desc_of e))
  ∧ type_info_get "ic11" = "32x32 (16@2x)"
  ∧ type_info_get "ic12" = "64x64 (32@2x)"
  ∧ type_info_get "ic13" = "256x256 (128@2x)"
  ∧ type_info_get "ic14" = "512x512 (256@2x)"
  ∧ (∀ k, k ∈ retina_keys →
       (k ∉ (type_key_of <$> ICON_TYPES))
       ∧ is_Some (type_info !! k) ∧ type_info_get k ≠ "unknown")
  ∧ (∀ source_img original_size temp_dir w icns added w' k,
       generate_sizes source_img original_size temp_dir w
         = (Ok (icns, added), w') →
       k ∈ retina_keys → k ∉ (media icns).*1).
Proof.
  assert (Hretina : ∀ k, k ∈ retina_keys →
            (k ∉ (type_key_of <$> ICON_TYPES))
            ∧ is_Some (type_info !! k) ∧ type_info_get k ≠ "unknown").
  { apply Forall_forall. unfold retina_keys.
    repeat constructor; try (by eexists); try discriminate;
      by apply (bool_decide_unpack _). }
  split.
  { apply Forall_forall. unfold ICON_TYPES. repeat constructor. }
  do 4 (split; [reflexivity|]). split; [exact Hretina|].
  intros source_img original_size temp_dir w icns added w' k Hrun Hk.
  apply generate_sizes_Ok in Hrun as (Hall & _). simpl in Hall.
  rewrite (expected_chunks_keys _ _ _ Hall). intros Hin.
  destruct (Hretina k Hk) as [Hnot _]. apply Hnot.
  eapply elem_of_sublist; [exact Hin|]. apply fmap_sublist, sublist_filter.
Qed.

Lemma inspect_table_extends_encode_table_witness :
  type_info !! "ic10" = Some "1024x1024 (512@2x)"
  ∧ ("ic11" ∉ (type_key_of <$> ICON_TYPES))
  ∧ ∃ icns added w',
      @generate_sizes Toy.pillow ("RGBA", (1024, 1024)%Z) (1024, 1024)%Z
        "/tmp/tmpk3" (Toy.world 1024 1024) = (Ok (icns, added), w')
      ∧ "ic11" ∉ (media icns).*1.
Proof.
  destruct (@inspect_table_extends_encode_table Toy.pillow)
    as (Hsub & _ & _ & _ & _ & Hretina & Hnever).
  split.
  { apply (Hsub ("ic10", 1024%Z, "1024x1024 (512@2x)")).
    by apply (bool_decide_unpack _). }
  split.
  { apply (Hretina "ic11"). by apply (bool_decide_unpack _). }
  eexists _, _, _. split; [vm_compute; reflexivity|].
  eapply (Hnever ("RGBA", (1024, 1024)%Z) (1024, 1024)%Z "/tmp/tmpk3"
            (Toy.world 1024 1024)).
  - vm_compute. reflexivity.
  - by apply (bool_decide_unpack _).
Defined.

Lemma report_entries_run (icns : IcnsFile) (w : World) :
  report_entries icns w
  = (Ok (),
     mkWorld (files w) (dirs w)
       (stdout w
          ++ ((λ c, Entry c.1 (type_info_get c.1) (length c.2))
                <$> media icns))).
Proof.
  unfold report_entries. destruct icns as [m]. simpl.
  revert w. induction m as [|[key data] m IH]; intros w; simpl.
  - rewrite app_nil_r. by destruct w.
  - rewrite bind_run. simpl. rewrite IH. simpl.
    by rewrite <- app_assoc.
Qed.

(** C5: the label lookup of [inspect_icns] is [dict.get] with a default,
    so it has a value for every key: "128x128" for ic07, the default
    "unknown" for every key that is not in the table, such as zzzz.  The
    reporting loop therefore completes on every container, whatever its
    keys, printing one line per chunk. *)
Theorem label_lookup_total :
  type_info_get "ic07" = "128x128"
  ∧ type_info_get "zzzz" = "unknown"
  ∧ (∀ key, key ∉ dom type_info → type_info_get key = "unknown")
  ∧ (∀ icns w, ∃ w',
       report_entries icns w = (Ok (), w')
       ∧ stdout w' =
           stdout w
             ++ ((λ c, Entry c.1 (type_info_get c.1) (length c.2))
                   <$> media icns)).
Proof.
  split; [reflexivity|]. split; [reflexivity|]. split.
  - intros key Hkey. unfold type_info_get.
    apply not_elem_of_dom in Hkey. by rewrite Hkey.
  - intros icns w. eexists. split; [apply report_entries_run|done].
Qed.

Lemma label_lookup_total_witness :
  ("zzzz" ∉ dom type_info) ∧ type_info_get "zzzz" = "unknown".
Proof.
  assert (Hdom : "zzzz" ∉ dom type_info)
    by (apply not_elem_of_dom; reflexivity).
  split; [exact Hdom|].
  destruct label_lookup_total as (_ & _ & Hdefault & _).
  exact (Hdefault "zzzz" Hdom).
Defined.

(** ** Standard output does not steer the script *)

Section Oblivious.
Context `{Collaborators} `{ContainerFormat}.

Lemma oblivious_ret {A} (a : A) : oblivious (mret a).
Proof. intros f d. exists (Ok a), f, d, []. intros o. by rewrite app_nil_r. Qed.

Lemma oblivious_raise {A} (e : Exn) : oblivious (@raise A e).
Proof.
  intros f d. exists (Raise e), f, d, []. intros o. by rewrite app_nil_r.
Qed.

Lemma oblivious_print (l : Line) : oblivious (print l).
Proof. intros f d. exists (Ok ()), f, d, [l]. done. Qed.

Lemma oblivious_bind {A B} (m : M A) (k : A → M B) :
  oblivious m → (∀ a, oblivious (k a)) → oblivious (m ≫= k).
Proof.
  intros Hm Hk f d. destruct (Hm f d) as (r & f1 & d1 & delta1 & Hrun).
  destruct r as [a|e].
  - destruct (Hk a f1 d1) as (r2 & f2 & d2 & delta2 & Hrun2).
    exists r2, f2, d2, (delta1 ++ delta2). intros o.
    rewrite bind_run, Hrun, Hrun2. by rewrite app_assoc.
  - exists (Raise e), f1, d1, delta1. intros o. by rewrite bind_run, Hrun.
Qed.

Lemma oblivious_try_finally {A} (m : M A) (dir : string) :
  oblivious m → oblivious (try_finally m (rmtree dir)).
Proof.
  intros Hm f d. destruct (Hm f d) as (r & f1 & d1 & delta & Hrun).
  eexists r, _, _, delta. intros o.
  unfold try_finally. rewrite Hrun. unfold rmtree. simpl. reflexivity.
Qed.

Lemma oblivious_exists_ p : oblivious (exists_ p).
Proof.
  intros f d. unfold exists_, path_exists. simpl.
  eexists _, f, d, []. intros o. rewrite app_nil_r. reflexivity.
Qed.

Lemma oblivious_read_file p : oblivious (read_file p).
Proof.
  intros f d. unfold read_file. simpl.
  destruct (f !! p); [|destruct (bool_decide _)];
    eexists _, f, d, []; intros o; rewrite app_nil_r; reflexivity.
Qed.

Lemma oblivious_write_file p b : oblivious (write_file p b).
Proof.
  intros f d. unfold write_file. simpl.
  destruct (bool_decide _); [|destruct (writable p)];
    eexists _, _, d, []; intros o; rewrite app_nil_r; reflexivity.
Qed.

Lemma oblivious_stat_size p : oblivious (stat_size p).
Proof.
  intros f d. unfold stat_size. simpl.
  destruct (f !! p);
    eexists _, f, d, []; intros o; rewrite app_nil_r; reflexivity.
Qed.

Lemma oblivious_mkdtemp : oblivious mkdtemp.
Proof.
  intros f d. unfold mkdtemp, path_exists. simpl.
  destruct tmp_candidate as [t|]; [destruct (_ || _)|];
    eexists _, f, _, []; intros o; rewrite app_nil_r; reflexivity.
Qed.

Lemma oblivious_for_each {A B} (xs : list A) (body : A → B → M B) :
  (∀ x acc, oblivious (body x acc)) → ∀ acc, oblivious (for_each xs body acc).
Proof.
  intros Hbody. induction xs as [|x xs IH]; intros acc; simpl.
  - apply oblivious_ret.
  - apply oblivious_bind; auto.
Qed.

Create HintDb oblivious.
#[local] Hint Resolve oblivious_ret oblivious_raise oblivious_print
  oblivious_exists_ oblivious_read_file oblivious_write_file
  oblivious_stat_size oblivious_mkdtemp oblivious_try_finally : oblivious.

(** Walk down a chain of binds, closing the primitive steps. *)
Ltac oblivious_steps :=
  repeat first
    [ solve [auto with oblivious]
    | apply oblivious_bind; [|intros ?; cbv beta] ].

Lemma oblivious_add_icon_type source_img original_size temp_dir e acc :
  oblivious (add_icon_type source_img original_size temp_dir e acc).
Proof.
  destruct e as [[type_key size] desc], acc as [icns added].
  unfold add_icon_type. destruct (decide _); [|auto with oblivious].
  unfold resize, save_png, add_media. oblivious_steps.
  - destruct (img_resize _ _ _); auto with oblivious.
  - destruct (png_bytes _); auto with oblivious.
Qed.

Lemma oblivious_generate_sizes source_img original_size temp_dir :
  oblivious (generate_sizes source_img original_size temp_dir).
Proof.
  apply oblivious_for_each. intros. apply oblivious_add_icon_type.
Qed.

Lemma oblivious_IcnsFile_write icns fname :
  oblivious (IcnsFile_write icns fname).
Proof.
  unfold IcnsFile_write. destruct (ContainerCodec.encode _);
    auto with oblivious.
Qed.

Lemma oblivious_build_icns source_img original_size output_path :
  oblivious (build_icns source_img original_size output_path).
Proof.
  unfold build_icns. apply oblivious_bind; [apply oblivious_mkdtemp|].
  intros temp_dir. apply oblivious_try_finally.
  unfold encode_body.
  apply oblivious_bind; [apply oblivious_generate_sizes|].
  intros [icns added].
  apply oblivious_bind; [apply oblivious_IcnsFile_write|]. intros _.
  oblivious_steps.
Qed.

(** C3, as the script has it: the warning line is printed exactly when
    at least one source dimension is below 512.  It is not an error: the
    statement returns normally and touches neither files nor
    directories, and the rest of the call has the same result, the same
    files and directories and prints the same lines as it would without
    the warning. *)
Theorem small_source_warning_nonfatal source_img (sw sh : Z) output_path
    (w : World) :
  ∃ warning,
    warn_if_small (sw, sh) w
      = (Ok (), mkWorld (files w) (dirs w) (stdout w ++ warning))
    ∧ (warning = [WarningSmall] ∧ (sw < 512 ∨ sh < 512)%Z
       ∨ warning = [] ∧ (512 ≤ sw ∧ 512 ≤ sh)%Z)
    ∧ ∃ r f' d' delta,
        build_icns source_img (sw, sh) output_path w
          = (r, mkWorld f' d' (stdout w ++ delta))
        ∧ (warn_if_small (sw, sh);;
           build_icns source_img (sw, sh) output_path) w
          = (r, mkWorld f' d' (stdout w ++ warning ++ delta)).
Proof.
  exists (if decide (sw < 512 ∨ sh < 512)%Z then [WarningSmall] else []).
  assert (Hwarn : warn_if_small (sw, sh) w
            = (Ok (), mkWorld (files w) (dirs w)
                 (stdout w ++ if decide (sw < 512 ∨ sh < 512)%Z
                              then [WarningSmall] else []))).
  { unfold warn_if_small. simpl. destruct (decide _); [done|].
    rewrite app_nil_r. by destruct w. }
  split; [exact Hwarn|]. split.
  { destruct (decide _); [left; done|right; split; [done|lia]]. }
  destruct (oblivious_build_icns source_img (sw, sh) output_path
              (files w) (dirs w)) as (r & f' & d' & delta & Hrun).
  exists r, f', d', delta. split.
  - rewrite <- Hrun. by destruct w.
  - rewrite bind_run, Hwarn, Hrun. by rewrite app_assoc.
Qed.

End Oblivious.

(** The claim that the warning needs both dimensions below 512 fails on
    a 1024x100 source: the warning is printed. *)
Lemma warning_with_one_small_dimension :
  ∃ w',
    @create_icns Toy.pillow Toy.icns_format "logo.png" None
      (Toy.world 1024 100) = (Ok "logo.icns", w')
    ∧ WarningSmall ∈ stdout w'
    ∧ ¬ (1024 < 512 ∧ 100 < 512)%Z.
Proof.
  eexists. split; [vm_compute; reflexivity|].
  split; [|lia]. simpl. repeat constructor.
Qed.


(** ** Where the script writes *)

Lemma prefix_append (a b : string) : String.prefix a (a +:+ b) = true.
Proof.
  induction a as [|c a IH]; simpl; [by destruct b|].
  by destruct (ascii_dec c c).
Qed.

Lemma under_joinpath (d name : string) : under d (joinpath d name) = true.
Proof.
  unfold under, joinpath.
  induction d as [|c d IH]; simpl.
  - by destruct name.
  - by destruct (ascii_dec c c).
Qed.

Section Frame.
Context `{Collaborators} `{ContainerFormat}.
Variable P : string → Prop.

Lemma writes_within_refl w : writes_within P w w.
Proof. split; [done|]. intros p Hp. by left. Qed.

Lemma writes_within_trans w1 w2 w3 :
  writes_within P w1 w2 → writes_within P w2 w3 → writes_within P w1 w3.
Proof.
  intros [Hd12 Hf12] [Hd23 Hf23]. split; [congruence|].
  intros p Hp. destruct (Hf23 p Hp) as [Hp2|?]; [|by right]. by apply Hf12.
Qed.

Lemma stays_within_ret {A} (a : A) : stays_within P (mret a).
Proof. intros w. apply writes_within_refl. Qed.

Lemma stays_within_raise {A} (e : Exn) : stays_within P (@raise A e).
Proof. intros w. apply writes_within_refl. Qed.

Lemma stays_within_print l : stays_within P (print l).
Proof. intros w. split; [done|]. intros p Hp. by left. Qed.

Lemma stays_within_read_file p : stays_within P (read_file p).
Proof.
  intros w. unfold read_file.
  destruct (files w !! p); [|destruct (bool_decide _)];
    apply writes_within_refl.
Qed.

Lemma stays_within_stat_size p : stays_within P (stat_size p).
Proof.
  intros w. unfold stat_size. destruct (files w !! p); apply writes_within_refl.
Qed.

Lemma stays_within_write_file p b : P p → stays_within P (write_file p b).
Proof.
  intros HP w. unfold write_file.
  destruct (bool_decide _); [apply writes_within_refl|].
  destruct (writable p); [|apply writes_within_refl].
  split; [done|]. simpl. intros q Hq.
  destruct (decide (p = q)) as [<-|Hne]; [by right|].
  left. by rewrite lookup_insert_ne in Hq.
Qed.

Lemma stays_within_bind {A B} (m : M A) (k : A → M B) :
  stays_within P m → (∀ a, stays_within P (k a)) → stays_within P (m ≫= k).
Proof.
  intros Hm Hk w. rewrite bind_run. specialize (Hm w).
  destruct (m w) as [[a|e] w1]; simpl in *; [|done].
  eapply writes_within_trans; [exact Hm|apply Hk].
Qed.

Lemma stays_within_for_each {A B} (xs : list A) (body : A → B → M B) :
  (∀ x acc, stays_within P (body x acc)) →
  ∀ acc, stays_within P (for_each xs body acc).
Proof.
  intros Hbody. induction xs as [|x xs IH]; intros acc; simpl.
  - apply stays_within_ret.
  - apply stays_within_bind; auto.
Qed.

End Frame.

Lemma stays_within_weaken `{Collaborators} (P Q : string → Prop) {A}
    (m : M A) :
  (∀ p, P p → Q p) → stays_within P m → stays_within Q m.
Proof.
  intros HPQ Hm w. destruct (Hm w) as [Hd Hf]. split; [done|].
  intros p Hp. destruct (Hf p Hp); auto.
Qed.

Section Released.
Context `{Collaborators} `{ContainerFormat}.

Create HintDb within.
#[local] Hint Resolve stays_within_ret stays_within_raise stays_within_print
  stays_within_read_file stays_within_stat_size : within.

Ltac within_steps :=
  repeat first
    [ solve [auto with within]
    | apply stays_within_bind; [|intros ?; cbv beta] ].

(** The loop writes only inside the scratch directory. *)
Lemma generate_sizes_stays_within source_img original_size temp_dir :
  stays_within (λ p, under temp_dir p) 
    (generate_sizes source_img original_size temp_dir).
Proof.
  apply stays_within_for_each. intros [[type_key size] desc] [icns added].
  unfold add_icon_type. destruct (decide _); [|auto with within].
  unfold resize, save_png, add_media. within_steps.
  - destruct (img_resize _ _ _); auto with within.
  - destruct (png_bytes _); [|auto with within].
    apply stays_within_write_file. by rewrite under_joinpath.
Qed.

Lemma encode_body_stays_within source_img original_size temp_dir output_path :
  stays_within (λ p, under temp_dir p ∨ p = output_path)
    (encode_body source_img original_size temp_dir output_path).
Proof.
  unfold encode_body. apply stays_within_bind.
  { eapply stays_within_weaken; [|apply generate_sizes_stays_within].
    intros p Hp. by left. }
  intros [icns added]. apply stays_within_bind.
  { unfold IcnsFile_write. destruct (ContainerCodec.encode _);
      [|auto with within].
    apply stays_within_write_file. by right. }
  intros _. within_steps.
Qed.

(** How [build_icns] runs: [mkdtemp] fails and nothing changes, or the
    [try] body runs in the world with the new directory and the
    [finally] clause removes that directory from the world it leaves. *)
Lemma build_icns_inv source_img original_size output_path w r w' :
  build_icns source_img original_size output_path w = (r, w') →
  ((∃ e, r = Raise e) ∧ w' = w
   ∧ ∀ temp_dir, tmp_candidate = Some temp_dir → path_exists temp_dir w = true)
  ∨ ∃ temp_dir w2,
      tmp_candidate = Some temp_dir
      ∧ path_exists temp_dir w = false
      ∧ encode_body source_img original_size temp_dir output_path
          (mkWorld (files w) ({[temp_dir]} ∪ dirs w) (stdout w)) = (r, w2)
      ∧ w' = rmtree temp_dir w2.
Proof.
  unfold build_icns. rewrite bind_run. unfold mkdtemp.
  destruct tmp_candidate as [temp_dir|];
    [|intros [= <- <-]; left; eauto 10 with congruence].
  destruct (path_exists temp_dir w) eqn:Hex.
  { intros [= <- <-]. left. split; [eauto|]. split; [done|]. congruence. }
  unfold try_finally.
  destruct (encode_body _ _ _ _ _) as [r2 w2] eqn:Hbody.
  intros [= <- <-]. right. eauto 10.
Qed.

Lemma files_rmtree d w p :
  files (rmtree d w) !! p = if under d p then None else files w !! p.
Proof.
  unfold rmtree. cbn [files]. destruct (under d p) eqn:Hu.
  - apply map_lookup_filter_None. right. intros b _ Hn. apply Hn.
    cbn [fst]. by rewrite Hu.
  - destruct (files w !! p) as [b|] eqn:Hp.
    + apply map_lookup_filter_Some. split; [done|]. cbn [fst]. rewrite Hu. exact id.
    + apply map_lookup_filter_None. by left.
Qed.

Lemma dirs_rmtree d w p : p ∈ dirs (rmtree d w) → p ∈ dirs w ∧ p ≠ d.
Proof.
  unfold rmtree. cbn [dirs]. intros [[Hne _] Hin]%elem_of_filter. done.
Qed.

Lemma build_icns_released source_img original_size output_path w r w' :
  build_icns source_img original_size output_path w = (r, w') →
  dirs w' ⊆ dirs w
  ∧ (∀ p, is_Some (files w' !! p) →
          is_Some (files w !! p) ∨ p = output_path)
  ∧ (∀ temp_dir p, tmp_candidate = Some temp_dir →
       path_exists temp_dir w = false → under temp_dir p →
       files w' !! p = None).
Proof.
  intros [(_ & -> & Hex)|(temp_dir & w2 & Htmp & Hfresh & Hbody & ->)]
    %build_icns_inv.
  { split; [done|]. split; [by left|].
    intros temp_dir p Htmp Hfresh. rewrite (Hex _ Htmp) in Hfresh. done. }
  pose proof (encode_body_stays_within source_img original_size temp_dir
                output_path
                (mkWorld (files w) ({[temp_dir]} ∪ dirs w) (stdout w)))
    as [Hd Hf].
  rewrite Hbody in Hd, Hf. simpl in Hd, Hf.
  split; [|split].
  - intros p [Hp Hne]%dirs_rmtree. rewrite Hd in Hp.
    by apply elem_of_union in Hp as [->%elem_of_singleton|].
  - intros p. rewrite files_rmtree.
    destruct (under temp_dir p) eqn:Hu; [by intros [? [=]]|].
    intros Hp. destruct (Hf p Hp) as [?|[Hup|?]]; auto.
    rewrite Hu in Hup. done.
  - intros d p Hd' _ Hu. rewrite files_rmtree.
    assert (d = temp_dir) as -> by congruence.
    destruct (under temp_dir p); [done|]. done.
Qed.

Lemma load_source_run input_path w :
  load_source input_path w =
  match files w !! input_path with
  | Some b =>
      match Image_open b with
      | Some img0 =>
          let source_img :=
            if decide (img_mode img0 ≠ "RGBA")
            then img_convert img0 "RGBA" else img0 in
          (Ok (source_img, img_size source_img),
           mkWorld (files w) (dirs w)
             (stdout w ++ [Loading input_path;
                           SourceSize (img_size source_img).1
                                      (img_size source_img).2]))
      | None =>
          (Raise UnidentifiedImageError,
           mkWorld (files w) (dirs w) (stdout w ++ [Loading input_path]))
      end
  | None =>
      (Raise (if bool_decide (input_path ∈ dirs w)
              then IsADirectoryError else NoSuchFile input_path),
       mkWorld (files w) (dirs w) (stdout w ++ [Loading input_path]))
  end.
Proof.
  unfold load_source. rewrite bind_run. unfold print at 1. cbv beta iota.
  rewrite bind_run. unfold Image_open_path. rewrite bind_run.
  unfold read_file. cbn [files dirs stdout].
  destruct (files w !! input_path) as [b|].
  - destruct (Image_open b) as [img0|]; [|done].
    cbn. rewrite bind_run. unfold print. cbn [files dirs stdout].
    by rewrite <- app_assoc.
  - by destruct (bool_decide _).
Qed.

Lemma warn_if_small_run (original_size : Z * Z) w :
  warn_if_small original_size w
  = (Ok (),
     mkWorld (files w) (dirs w)
       (stdout w
          ++ if decide (original_size.1 < 512 ∨ original_size.2 < 512)%Z
             then [WarningSmall] else [])).
Proof.
  unfold warn_if_small. destruct (decide _); [done|].
  rewrite app_nil_r. by destruct w.
Qed.

(** How [create_icns] runs: it raises before the scratch directory is
    asked for, leaving files and directories as they were, or the output
    path is resolved, the source image is loaded, and [build_icns] runs
    in a world with the same files and directories. *)
Lemma create_icns_inv input_path output_path w r w' :
  create_icns input_path output_path w = (r, w') →
  ((∃ e, r = Raise e) ∧ files w' = files w ∧ dirs w' = dirs w)
  ∨ ∃ out b img0 w1,
      match output_path with
      | None => with_suffix (Path_str input_path) ".icns" = Ok out
      | Some o => out = Path_str o
      end
      ∧ files w !! Path_str input_path = Some b
      ∧ Image_open b = Some img0
      ∧ files w1 = files w ∧ dirs w1 = dirs w
      ∧ let source_img :=
          if decide (img_mode img0 ≠ "RGBA")
          then img_convert img0 "RGBA" else img0 in
        build_icns source_img (img_size source_img) out w1 = (r, w').
Proof.
  unfold create_icns. cbv zeta. generalize (Path_str input_path).
  clear input_path. intros input_path.
  rewrite bind_run. unfold exists_ at 1.
  destruct (negb (path_exists input_path w));
    [intros [= <- <-]; left; eauto|].
  rewrite bind_run.
  assert (Hres : ∃ ro, resolve_output input_path output_path w = (ro, w)
            ∧ ∀ out, ro = Ok out →
                match output_path with
                | None => with_suffix input_path ".icns" = Ok out
                | Some o => out = Path_str o
                end).
  { unfold resolve_output. destruct output_path as [o|].
    - eexists. split; [reflexivity|]. by intros out [= ->].
    - destruct (with_suffix input_path ".icns") as [q|e];
        eexists; (split; [reflexivity|]); by intros out [= ->]. }
  destruct Hres as (ro & -> & Hro).
  destruct ro as [out|e]; [|intros [= <- <-]; left; eauto].
  specialize (Hro out eq_refl).
  cbv beta iota. rewrite bind_run, load_source_run.
  destruct (files w !! input_path) as [b|] eqn:Hb;
    [|intros [= <- <-]; left; eauto].
  destruct (Image_open b) as [img0|] eqn:Himg;
    [|intros [= <- <-]; left; eauto].
  cbv beta iota zeta. rewrite bind_run, warn_if_small_run. intros Hbuild.
  right. exists out, b, img0. eexists.
  split; [exact Hro|]. split; [done|]. split; [done|].
  split; [|split; [|exact Hbuild]]; done.
Qed.

(** C7: whatever the outcome of [create_icns], a result or an exception
    raised at any point, the scratch directory does not survive the
    call: every directory left behind existed before, every file left
    behind existed before or is the output container, and nothing is
    left inside the directory that [mkdtemp] created. *)
Theorem scratch_directory_released input_path output_path w r w' :
  create_icns input_path output_path w = (r, w') →
  dirs w' ⊆ dirs w
  ∧ (∀ p, is_Some (files w' !! p) →
          is_Some (files w !! p)
          ∨ (resolve_output (Path_str input_path) output_path w).1 = Ok p)
  ∧ (∀ temp_dir, tmp_candidate = Some temp_dir →
       path_exists temp_dir w = false →
       (temp_dir ∉ dirs w')
       ∧ ∀ p, under temp_dir p → is_Some (files w' !! p) →
              is_Some (files w !! p)).
Proof.
  intros [(_ & Hf & Hd)|(out & b & img0 & w1 & Hout & _ & _ & Hf1 & Hd1 & Hb)]
    %create_icns_inv.
  { rewrite Hf, Hd. split; [done|]. split; [by left|].
    intros temp_dir _ Hfresh. split; [|done].
    unfold path_exists in Hfresh.
    apply orb_false_iff in Hfresh as [_ Hfresh].
    by apply bool_decide_eq_false in Hfresh. }
  simpl in Hb. apply build_icns_released in Hb as (Hd & Hf & Htmp).
  rewrite Hd1 in Hd. split; [done|]. split; [|].
  - intros p Hp. destruct (Hf p Hp) as [Hp1| ->]; [left; by rewrite <- Hf1|].
    right. unfold resolve_output. destruct output_path as [o|].
    + by subst.
    + by rewrite Hout.
  - intros temp_dir Hcand Hfresh.
    assert (Hfresh1 : path_exists temp_dir w1 = false).
    { unfold path_exists in *. by rewrite Hf1, Hd1. }
    split.
    + intros Hin. apply Hd in Hin. unfold path_exists in Hfresh.
      apply orb_false_iff in Hfresh as [_ Hfresh].
      by apply bool_decide_eq_false in Hfresh.
    + intros p Hu [x Hx]. rewrite (Htmp _ _ Hcand Hfresh1 Hu) in Hx. done.
Qed.

End Released.

(** The resampler raises at the fourth size, after three bitmaps were
    saved in the scratch directory: nothing of it is left. *)
Lemma scratch_directory_released_witness :
  ∃ w',
    @create_icns Toy.failing_pillow Toy.icns_format "logo.png" None
      (Toy.world 1024 1024) = (Raise ImagingError, w')
    ∧ dirs w' ⊆ dirs (Toy.world 1024 1024)
    ∧ ("/tmp/tmpk3" ∉ dirs w')
    ∧ files w' !! "/tmp/tmpk3/icon_16x16.png" = None.
Proof.
  eexists. split; [vm_compute; reflexivity|].
  edestruct (@scratch_directory_released Toy.failing_pillow Toy.icns_format
               "logo.png" None (Toy.world 1024 1024))
    as (Hd & _ & Htmp); [vm_compute; reflexivity|].
  split; [exact Hd|].
  destruct (Htmp "/tmp/tmpk3" eq_refl eq_refl) as [Hdir Hfiles].
  split; [exact Hdir|].
  specialize (Hfiles "/tmp/tmpk3/icon_16x16.png" I).
  match goal with |- ?o = None => destruct o eqn:Hlook; [|reflexivity] end.
  destruct Hfiles as [x Hx]; [by eexists|]. vm_compute in Hx. discriminate.
Defined.


(** ** Replacing the extension *)

Lemma rsplit_None sep s : contains sep s = false → rsplit sep s = None.
Proof.
  induction s as [|c s IH]; simpl; [done|].
  intros [Hc Hs]%orb_false_iff. by rewrite IH, Hc.
Qed.

Lemma rsplit_app sep a b :
  contains sep b = false → rsplit sep (a +:+ String sep b) = Some (a, b).
Proof.
  intros Hb. induction a as [|c a IH]; simpl.
  - by rewrite rsplit_None, Ascii.eqb_refl.
  - by rewrite IH.
Qed.

Lemma rsplit_Some sep s a b :
  rsplit sep s = Some (a, b) →
  s = a +:+ String sep b ∧ contains sep b = false.
Proof.
  revert a. induction s as [|c s IH]; simpl; [done|]. intros a.
  destruct (rsplit sep s) as [[a' b']|] eqn:Hs.
  - intros [= <- <-]. destruct (IH a' eq_refl) as [-> Hb]. done.
  - destruct (Ascii.eqb c sep) eqn:Hc; [|done]. intros [= <- <-].
    apply Ascii.eqb_eq in Hc as ->. split; [done|].
    clear IH. induction s as [|c s IH]; simpl in *; [done|].
    destruct (rsplit sep s); [by destruct p|].
    destruct (Ascii.eqb c sep) eqn:Hc; [done|]. simpl. by apply IH.
Qed.

Lemma contains_app c a b :
  contains c (a +:+ b) = contains c a || contains c b.
Proof.
  induction a as [|c' a IH]; simpl; [done|]. by rewrite IH, orb_assoc.
Qed.

Lemma append_assoc (a b c : string) : (a +:+ b) +:+ c = a +:+ (b +:+ c).
Proof.
  induction a as [|x a IH]; [done|].
  change (String x ((a +:+ b) +:+ c) = String x (a +:+ (b +:+ c))).
  by rewrite IH.
Qed.

Lemma stem_extension nb ext :
  nb ≠ "" → is_extension ext → stem (nb +:+ "." +:+ ext) = nb.
Proof.
  intros Hnb (Hext & Hdot & _). unfold stem.
  change (nb +:+ "." +:+ ext) with (nb +:+ String "." ext).
  rewrite rsplit_app by done.
  destruct nb; [done|]. destruct ext; [done|]. done.
Qed.

(** On a path with a proper extension, [with_suffix] replaces it. *)
Lemma with_suffix_replaces base ext suffix :
  has_name base → is_extension ext →
  with_suffix (base +:+ "." +:+ ext) suffix = Ok (base +:+ suffix).
Proof.
  intros Hname Hext. pose proof Hext as (Hne & Hdot & Hslash).
  unfold with_suffix, split_name, has_name in *.
  destruct (rsplit "/" base) as [[parent nb]|] eqn:Hbase.
  - apply rsplit_Some in Hbase as [-> Hnb].
    rewrite append_assoc.
    change (String "/" nb +:+ "." +:+ ext)
      with (String "/" (nb +:+ "." +:+ ext)).
    rewrite rsplit_app.
    2:{ change ("." +:+ ext) with (String "." ext).
        rewrite contains_app. simpl. by rewrite Hnb, Hslash. }
    rewrite stem_extension by done.
    destruct nb as [|c nb]; [done|]. simpl. f_equal.
    rewrite !append_assoc. done.
  - assert (Hnone : rsplit "/" (base +:+ "." +:+ ext) = None).
    { apply rsplit_None. change ("." +:+ ext) with (String "." ext).
      rewrite contains_app. simpl. rewrite Hslash.
      destruct (contains "/" base) eqn:Hc; [|done].
      exfalso. clear -Hbase Hc.
      induction base as [|c b IH]; simpl in *; [done|].
      destruct (rsplit "/" b) as [[? ?]|]; [done|].
      destruct (Ascii.eqb c "/"); [done|]. simpl in Hc. auto. }
    rewrite Hnone.
    assert (Hdotp : String.eqb (base +:+ "." +:+ ext) "." = false).
    { destruct base as [|c b]; [done|]. simpl.
      destruct (Ascii.eqb c "."); [|done]. destruct b; [|done].
      simpl. by destruct ext. }
    rewrite Hdotp, stem_extension by done.
    destruct base; done.
Qed.



(** The description by cases determines the result. *)
Lemma replaces_suffix_stem suffix name new :
  replaces_suffix suffix name new → new = stem name +:+ suffix.
Proof.
  intros [nb ext Hnb Hext Hdot|n Hdot|ext Hdot|nb]; unfold stem.
  - change (nb +:+ "." +:+ ext) with (nb +:+ String "." ext).
    rewrite rsplit_app by done.
    destruct nb; [done|]. destruct ext; [done|]. done.
  - by rewrite rsplit_None.
  - change ("." +:+ ext) with ("" +:+ String "." ext).
    rewrite rsplit_app by done. simpl. done.
  - change (nb +:+ ".") with (nb +:+ String "." "").
    rewrite rsplit_app by done. rewrite String.eqb_refl, orb_true_r.
    by rewrite append_assoc.
Qed.

Lemma replaces_suffix_functional suffix name new1 new2 :
  replaces_suffix suffix name new1 → replaces_suffix suffix name new2 →
  new1 = new2.
Proof. intros ->%replaces_suffix_stem ->%replaces_suffix_stem. done. Qed.

(** A path has one directory part and one last component. *)
Lemma parent_name_rsplit parent name :
  (parent = "" ∨ ∃ d, parent = d +:+ "/") → contains "/" name = false →
  rsplit "/" (parent +:+ name)
  = match rsplit "/" parent with
    | Some (d, _) => Some (d, name)
    | None => None
    end.
Proof.
  intros [->|[d ->]] Hname.
  - simpl. by rewrite rsplit_None.
  - change (d +:+ "/") with (d +:+ String "/" ""). rewrite rsplit_app by done.
    rewrite append_assoc. change (String "/" "" +:+ name) with (String "/" name).
    by rewrite rsplit_app.
Qed.

Lemma suffix_replaced_functional suffix p q1 q2 :
  suffix_replaced suffix p q1 → suffix_replaced suffix p q2 → q1 = q2.
Proof.
  intros (par1 & n1 & new1 & Hp1 & Hpar1 & Hn1 & _ & Hnew1 & ->)
         (par2 & n2 & new2 & Hp2 & Hpar2 & Hn2 & _ & Hnew2 & ->).
  assert (par1 = par2 ∧ n1 = n2) as [<- <-].
  { pose proof (parent_name_rsplit par1 n1 Hpar1 Hn1) as H1.
    pose proof (parent_name_rsplit par2 n2 Hpar2 Hn2) as H2.
    rewrite <- Hp1 in H1. rewrite <- Hp2 in H2. rewrite H1 in H2.
    destruct Hpar1 as [->|[d1 ->]], Hpar2 as [->|[d2 ->]].
    - simpl in *. by subst.
    - change (d2 +:+ "/") with (d2 +:+ String "/" "") in H2.
      rewrite rsplit_app in H2 by done. done.
    - change (d1 +:+ "/") with (d1 +:+ String "/" "") in H2.
      rewrite rsplit_app in H2 by done. done.
    - change (d1 +:+ "/") with (d1 +:+ String "/" "") in H2.
      change (d2 +:+ "/") with (d2 +:+ String "/" "") in H2.
      rewrite !rsplit_app in H2 by done. by injection H2 as -> ->. }
  f_equal. by eapply replaces_suffix_functional.
Qed.


(** ** Paths that [Path] leaves as they are *)








(** ** Runs of [create_icns] that return *)

Section Returns.
Context `{Collaborators} `{ContainerFormat}.

(** When the [try] body returns, it returns the output path; the loop
    completed, its container was serialized, and the bytes are in the
    file at the output path. *)
Lemma encode_body_Ok source_img original_size temp_dir output_path w p w2 :
  encode_body source_img original_size temp_dir output_path w = (Ok p, w2) →
  p = output_path
  ∧ ∃ icns added w1 bytes,
      generate_sizes source_img original_size temp_dir w
        = (Ok (icns, added), w1)
      ∧ ContainerCodec.encode (media icns) = Some bytes
      ∧ files w2 = <[output_path := bytes]> (files w1)
      ∧ dirs w2 = dirs w1.
Proof.
  unfold encode_body. intros Hrun.
  apply bind_Ok_inv in Hrun as ([icns added] & w1 & Hgen & Hrun).
  apply bind_Ok_inv in Hrun as ([] & wa & Hwrite & Hrun).
  apply bind_Ok_inv in Hrun as ([] & wb & Hp1 & Hrun).
  apply bind_Ok_inv in Hrun as ([] & wc & Hp2 & Hrun).
  apply bind_Ok_inv in Hrun as (n & wd & Hstat & Hrun).
  apply bind_Ok_inv in Hrun as ([] & we & Hp3 & Hret).
  injection Hret as <- <-.
  unfold IcnsFile_write in Hwrite.
  destruct (ContainerCodec.encode (media icns)) as [bytes|] eqn:Henc;
    [|discriminate].
  unfold write_file in Hwrite.
  destruct (bool_decide _); [discriminate|].
  destruct (writable _); [|discriminate].
  injection Hwrite as <-. injection Hp1 as <-. injection Hp2 as <-.
  unfold stat_size in Hstat. cbn [files] in Hstat.
  rewrite lookup_insert_eq in Hstat. injection Hstat as <- <-.
  injection Hp3 as <-. split; [done|].
  exists icns, added, w1, bytes. done.
Qed.

(** When [create_icns] returns, it returns the resolved output path; the
    source image was loaded, the loop stored the chunks of
    [entriesUpTo] for the larger dimension, and the serialized container
    is in the file at the output path, unless that path lies inside the
    scratch directory, which is removed with all it holds. *)
Lemma create_icns_Ok input_path output_path w p w' :
  create_icns input_path output_path w = (Ok p, w') →
  ∃ b img0 temp_dir chunks bytes,
    match output_path with
    | None => with_suffix (Path_str input_path) ".icns" = Ok p
    | Some o => p = Path_str o
    end
    ∧ files w !! Path_str input_path = Some b
    ∧ Image_open b = Some img0
    ∧ tmp_candidate = Some temp_dir
    ∧ (let source_img :=
         if decide (img_mode img0 ≠ "RGBA")
         then img_convert img0 "RGBA" else img0 in
       Forall2 (λ e c, expected_chunk source_img e = Some c)
         (entriesUpTo (Z.max (img_size source_img).1 (img_size source_img).2))
         chunks)
    ∧ ContainerCodec.encode chunks = Some bytes
    ∧ files w' !! p = if under temp_dir p then None else Some bytes.
Proof.
  intros [[[e [=]] _]|(out & b & img0 & w1 & Hout & Hb & Himg & _ & _ & Hrun)]
    %create_icns_inv.
  cbv zeta in Hrun.
  apply build_icns_inv in Hrun
    as [[[e [=]] _]|(temp_dir & w2 & Htmp & _ & Hbody & ->)].
  apply encode_body_Ok in Hbody
    as (-> & icns & added & w3 & bytes & Hgen & Henc & Hfiles & _).
  apply generate_sizes_Ok in Hgen as (Hall & _).
  exists b, img0, temp_dir, (media icns), bytes.
  split; [exact Hout|]. repeat (split; [done|]).
  rewrite files_rmtree, Hfiles, lookup_insert_eq. done.
Qed.


End Returns.



(** A dot in a directory name is no suffix: the directory part is kept,
    and ".icns" is appended to a name without a suffix. *)
Lemma dotted_directory_is_kept :
  ∃ w',
    @create_icns (Toy.pillow_in ["v1.2"]) Toy.icns_format "v1.2/logo" None
      (mkWorld {[ "v1.2/logo" := Toy.two_bytes 64 ++ Toy.two_bytes 64 ]}
         {[ "v1.2" ]} [])
    = (Ok "v1.2/logo.icns", w').
Proof. eexists. vm_compute. reflexivity. Qed.

(** An output path in a directory that does not exist: the write is
    refused, and nothing is left behind. *)
Lemma missing_directory_is_refused :
  ∃ w',
    @create_icns Toy.pillow Toy.icns_format "logo.png"
      (Some "nodir/out.icns") (Toy.world 64 64) = (Raise OSError, w')
    ∧ files w' = files (Toy.world 64 64)
    ∧ dirs w' = dirs (Toy.world 64 64).
Proof. eexists. split; [vm_compute; reflexivity|]. split; reflexivity. Qed.

(** ** The container codec *)

Module CodecFacts.
Import ContainerCodec.
Section Facts.
Context `{ContainerFormat}.

Lemma decode_chunks_step buf :
  decode_chunks buf =
  match buf with
  | [] => Ok []
  | _ =>
      if decide (length buf < tag_size + length_field_size) then Raise TrailingBytes else
      let n := be_value (take length_field_size (drop tag_size buf)) in
      let body := drop (tag_size + length_field_size) buf in
      if decide (N.of_nat (length body) < n)%N then Raise TruncatedChunk else
      match decode_chunks (drop (N.to_nat n) body) with
      | Ok cs =>
          Ok ((string_of_list_byte (take tag_size buf),
               take (N.to_nat n) body) :: cs)
      | Raise e => Raise e
      end
  end.
Proof.
  destruct buf as [|b bs]; simp decode_chunks; [done|].
  destruct (decide (length (b :: bs) < tag_size + length_field_size)); simpl; [done|].
  destruct (decide (_ < _)%N); simpl; [done|].
  destruct (decode_chunks _); done.
Qed.
Lemma length_be_bytes w n : length (be_bytes w n) = w.
Proof.
  revert n. induction w as [|w IH]; intros n; simpl; [done|].
  rewrite length_app, IH. simpl. lia.
Qed.

Lemma to_N_byte_of_N n : Byte.to_N (byte_of_N n) = (n mod 256)%N.
Proof.
  unfold byte_of_N. destruct (Byte.of_N (n mod 256)) as [b|] eqn:Hb; simpl.
  - by apply Byte.to_of_N.
  - pose proof (Byte.to_of_N_option_map (n mod 256)%N) as Hm.
    rewrite Hb in Hm. simpl in Hm.
    pose proof (N.mod_upper_bound n 256 ltac:(done)).
    destruct (N.leb_spec (n mod 256) 255); [done|lia].
Qed.

Lemma be_value_snoc bs b :
  be_value (bs ++ [b]) = (be_value bs * 256 + Byte.to_N b)%N.
Proof. unfold be_value. by rewrite foldl_app. Qed.

Lemma be_value_be_bytes w n :
  (n < 256 ^ N.of_nat w)%N → be_value (be_bytes w n) = n.
Proof.
  revert n. induction w as [|w IH]; intros n Hn.
  - simpl in *. unfold be_value. simpl. lia.
  - simpl. rewrite be_value_snoc, to_N_byte_of_N, IH.
    + pose proof (N.div_mod n 256 ltac:(done)). lia.
    + rewrite Nat2N.inj_succ, N.pow_succ_r' in Hn.
      apply N.Div0.div_lt_upper_bound. lia.
Qed.

Lemma length_list_byte_of_string s :
  length (list_byte_of_string s) = String.length s.
Proof.
  unfold list_byte_of_string. rewrite List.length_map.
  induction s as [|c s IH]; simpl; [done|]. by f_equal.
Qed.

Lemma representable_lt n :
  representable n = true ↔ (N.of_nat n < 256 ^ N.of_nat length_field_size)%N.
Proof. unfold representable. apply N.ltb_lt. Qed.

(** A chunk that fits, in front of [rest], is read back and the loop
    continues with [rest]. *)
Lemma decode_chunks_chunk (c : string * list byte) rest :
  String.length c.1 = tag_size →
  representable (length c.2) = true →
  decode_chunks (chunk_bytes c ++ rest) =
  match decode_chunks rest with
  | Ok cs => Ok (c :: cs)
  | Raise e => Raise e
  end.
Proof.
  destruct c as [tag payload]. simpl. intros Htag Hrep%representable_lt.
  rewrite decode_chunks_step. unfold chunk_bytes. simpl fst. simpl snd.
  set (t := list_byte_of_string tag).
  set (l := be_bytes length_field_size (N.of_nat (length payload))).
  assert (Ht : length t = tag_size)
    by (unfold t; by rewrite length_list_byte_of_string).
  assert (Hl : length l = length_field_size) by apply length_be_bytes.
  destruct ((t ++ l ++ payload) ++ rest) as [|b0 bs0] eqn:Hbuf.
  { apply (f_equal length) in Hbuf. rewrite !length_app, Ht in Hbuf.
    unfold tag_size in Hbuf. simpl in Hbuf. lia. }
  rewrite <- Hbuf. clear Hbuf b0 bs0.
  rewrite <- !app_assoc.
  destruct (decide _) as [Hshort|_].
  { rewrite !length_app, Ht, Hl in Hshort. lia. }
  cbv zeta.
  assert (Hdrop1 : drop tag_size (t ++ l ++ payload ++ rest)
                   = l ++ payload ++ rest)
    by (by apply drop_app_length').
  assert (Hdrop2 : drop (tag_size + length_field_size)
                     (t ++ l ++ payload ++ rest) = payload ++ rest).
  { rewrite <- drop_drop, Hdrop1. by apply drop_app_length'. }
  rewrite Hdrop1, Hdrop2.
  rewrite (take_app_length' l) by done.
  assert (Hval : be_value l = N.of_nat (length payload))
    by (by apply be_value_be_bytes).
  rewrite Hval, Nat2N.id, take_app_length, drop_app_length.
  destruct (decide _) as [Hlt|_].
  { rewrite length_app in Hlt. lia. }
  rewrite (take_app_length' t) by done. unfold t.
  by rewrite string_of_list_byte_of_string.
Qed.

Lemma decode_chunks_concat (chunks : list (string * list byte)) rest :
  Forall (λ c, String.length c.1 = tag_size
               ∧ representable (length c.2) = true) chunks →
  decode_chunks (concat (chunk_bytes <$> chunks) ++ rest) =
  match decode_chunks rest with
  | Ok cs => Ok (chunks ++ cs)
  | Raise e => Raise e
  end.
Proof.
  induction 1 as [|c chunks [Htag Hrep] _ IH].
  - simpl. by destruct (decode_chunks rest).
  - rewrite fmap_cons, List.concat_cons.
    rewrite <- app_assoc, decode_chunks_chunk, IH by done.
    by destruct (decode_chunks rest).
Qed.

(** The header check on a buffer that starts with a header declaring
    [declared] bytes. *)
Lemma decode_header buf declared :
  (declared < 256 ^ N.of_nat length_field_size)%N →
  take header_size buf = magic ++ be_bytes length_field_size declared →
  decode buf =
  if decide (declared = N.of_nat (length buf))
  then decode_chunks (drop header_size buf) else Raise MalformedHeader.
Proof.
  intros Hdecl Hhead. unfold decode.
  assert (Hlen : (header_size ≤ length buf)%nat).
  { apply (f_equal length) in Hhead.
    rewrite length_take, length_app, length_be_bytes in Hhead.
    unfold header_size. lia. }
  destruct (decide (length buf < header_size)); [lia|].
  assert (Hmagic : take (length magic) buf = magic).
  { replace (length magic) with (length magic `min` header_size)
      by (unfold header_size; lia).
    rewrite <- take_take, Hhead. by apply take_app_length'. }
  assert (Hfield : take length_field_size (drop (length magic) buf)
                   = be_bytes length_field_size declared).
  { rewrite take_drop_commute. fold header_size. rewrite Hhead.
    by apply drop_app_length'. }
  destruct (decide (_ ≠ magic)); [done|].
  rewrite Hfield, be_value_be_bytes by done.
  destruct (decide (declared ≠ _)), (decide (declared = _)); done.
Qed.

Lemma take_header (declared : N) body :
  take header_size (magic ++ be_bytes length_field_size declared ++ body)
  = magic ++ be_bytes length_field_size declared.
Proof.
  rewrite app_assoc. apply take_app_length'.
  rewrite length_app, length_be_bytes. done.
Qed.

Lemma drop_header (declared : N) body :
  drop header_size (magic ++ be_bytes length_field_size declared ++ body)
  = body.
Proof.
  rewrite app_assoc. apply drop_app_length'.
  rewrite length_app, length_be_bytes. done.
Qed.

Lemma length_chunks (chunks : list (string * list byte)) :
  Forall (λ c, String.length c.1 = tag_size) chunks →
  header_size + length (concat (chunk_bytes <$> chunks))
  = total_length chunks.
Proof.
  unfold total_length. intros Hall. f_equal.
  induction Hall as [|c chunks Htag _ IH]; [done|].
  rewrite !fmap_cons, List.concat_cons, length_app, IH.
  unfold chunk_bytes at 1.
  rewrite !length_app, length_list_byte_of_string, length_be_bytes, Htag.
  simpl. lia.
Qed.

Lemma payload_le_total (c : string * list byte) chunks :
  c ∈ chunks → (length c.2 ≤ total_length chunks)%nat.
Proof.
  unfold total_length. induction 1 as [c chunks|c c' chunks _ IH];
    rewrite fmap_cons; cbn [sum_list_with id]; lia.
Qed.

Lemma length_encode chunks bytes :
  Forall (λ c, String.length c.1 = tag_size) chunks →
  encode chunks = Some bytes →
  length bytes = total_length chunks
  ∧ representable (total_length chunks) = true.
Proof.
  intros Hall. unfold encode.
  destruct (representable (total_length chunks)) eqn:Hrep; [|done].
  intros [= <-]. split; [|done].
  rewrite !length_app, length_be_bytes, <- length_chunks by done.
  unfold header_size. lia.
Qed.

(** Decoding what [encode] produced gives the chunks back, in order. *)
Lemma decode_encode chunks bytes :
  Forall (λ c, String.length c.1 = tag_size) chunks →
  encode chunks = Some bytes →
  decode bytes = Ok chunks.
Proof.
  intros Hall Henc.
  destruct (length_encode _ _ Hall Henc) as [Hlen Hrep].
  unfold encode in Henc. rewrite Hrep in Henc. injection Henc as <-.
  apply representable_lt in Hrep.
  rewrite (decode_header _ (N.of_nat (total_length chunks)))
    by (done || apply take_header).
  rewrite Hlen. destruct (decide _); [|done].
  rewrite drop_header.
  rewrite <- (app_nil_r (concat _)), decode_chunks_concat.
  - rewrite decode_chunks_step. by rewrite app_nil_r.
  - apply Forall_forall. intros c Hc. split.
    + by apply (proj1 (Forall_forall _ _) Hall).
    + apply representable_lt. pose proof (payload_le_total _ _ Hc). lia.
Qed.

End Facts.
End CodecFacts.

(** ** Writing a container and reading it back *)

Section RoundTrip.
Context `{Collaborators} `{ContainerFormat}.

Lemma expected_chunks_tags source_img d chunks :
  Forall2 (λ e c, expected_chunk source_img e = Some c) (entriesUpTo d)
    chunks →
  Forall (λ c, String.length c.1 = ContainerCodec.tag_size) chunks
  ∧ NoDup chunks.*1.
Proof.
  intros Hall. pose proof (expected_chunks_keys _ _ _ Hall) as Hkeys. split.
  - apply Forall_fmap with (f := fst) (P := λ k, String.length k = 4).
    rewrite Hkeys. apply Forall_fmap.
    unfold entriesUpTo. apply Forall_forall. intros e He.
    apply list_elem_of_filter in He as [_ He].
    by apply (proj1 (Forall_forall _ _) ICON_TYPES_keys_length).
  - rewrite Hkeys. eapply sublist_NoDup; [apply ICON_TYPES_keys_NoDup|].
    apply fmap_sublist, sublist_filter.
Qed.

Lemma foldl_dict_set_fresh {V} (chunks acc : list (string * V)) :
  NoDup (acc ++ chunks).*1 →
  foldl (λ d c, dict_set c.1 c.2 d) acc chunks = acc ++ chunks.
Proof.
  revert acc. induction chunks as [|[k v] chunks IH]; intros acc Hnd; simpl.
  - by rewrite app_nil_r.
  - rewrite dict_set_fresh.
    + rewrite IH; rewrite <- app_assoc; done.
    + rewrite fmap_app in Hnd. apply NoDup_app in Hnd as (_ & Hdisj & _).
      intros Hk. apply (Hdisj k Hk). rewrite fmap_cons. left.
Qed.

(** C4: when [create_icns] returns, the container file it wrote holds
    the serialization of exactly the chunks the loop stored, and the
    parser gives these chunks back, same keys, same payload bytes, same
    order; so does [icnsutil.IcnsFile(path)] on the output file. *)
Theorem decode_recovers_encoded_chunks input_path output_path w p w' :
  create_icns input_path output_path w = (Ok p, w') →
  ∃ b img0 temp_dir chunks bytes,
    files w !! Path_str input_path = Some b
    ∧ Image_open b = Some img0
    ∧ tmp_candidate = Some temp_dir
    ∧ (let source_img :=
         if decide (img_mode img0 ≠ "RGBA")
         then img_convert img0 "RGBA" else img0 in
       Forall2 (λ e c, expected_chunk source_img e = Some c)
         (entriesUpTo (Z.max (img_size source_img).1 (img_size source_img).2))
         chunks)
    ∧ ContainerCodec.encode chunks = Some bytes
    ∧ files w' !! p = (if under temp_dir p then None else Some bytes)
    ∧ ContainerCodec.decode bytes = Ok chunks
    ∧ (under temp_dir p = false →
       IcnsFile_open p w' = (Ok (mkIcnsFile chunks), w')).
Proof.
  intros (b & img0 & temp_dir & chunks & bytes & _ & Hb & Himg & Htmp & Hall
          & Henc & Hfile)%create_icns_Ok.
  exists b, img0, temp_dir, chunks, bytes.
  destruct (expected_chunks_tags _ _ _ Hall) as [Htags Hnd].
  pose proof (CodecFacts.decode_encode _ _ Htags Henc) as Hdec.
  repeat (split; [done|]).
  intros Hu. rewrite Hu in Hfile.
  unfold IcnsFile_open. rewrite bind_run. unfold read_file.
  rewrite Hfile, Hdec. by rewrite foldl_dict_set_fresh.
Qed.

End RoundTrip.


Lemma decode_recovers_encoded_chunks_witness :
  ∃ w' bytes,
    @create_icns Toy.pillow Toy.icns_format "logo.png" None
      (Toy.world 32 32) = (Ok "logo.icns", w')
    ∧ files w' !! "logo.icns" = Some bytes
    ∧ @ContainerCodec.decode Toy.icns_format bytes
      = Ok [("icp4", Toy.two_bytes 16 ++ Toy.two_bytes 16);
            ("icp5", Toy.two_bytes 32 ++ Toy.two_bytes 32)].
Proof.
  eexists _, _. split; [vm_compute; reflexivity|].
  edestruct (@decode_recovers_encoded_chunks Toy.pillow Toy.icns_format
               "logo.png" None (Toy.world 32 32))
    as (b & img0 & temp_dir & chunks & bytes & Hb & Himg & Htmp & Hall
        & Henc & Hfile & Hdec & _); [vm_compute; reflexivity|].
  injection Htmp as <-.
  change (under "/tmp/tmpk3" "logo.icns") with false in Hfile.
  split; [vm_compute; reflexivity|].
  vm_compute in Hfile. injection Hfile as <-.
  rewrite Hdec. f_equal.
  injection Hb as <-. injection Himg as <-.
  vm_compute in Hall.
  repeat match goal with
         | Hf : Forall2 _ _ _ |- _ => inversion Hf; clear Hf; subst
         end.
  repeat match goal with
         | Heq : Some _ = Some _ |- _ => injection Heq as <-
         end.
  reflexivity.
Defined.

(** ** Sources smaller than every table entry *)

Section SmallSource.
Context `{Collaborators} `{ContainerFormat}.

Lemma for_each_skips source_img original_size temp_dir
    (l : list (string * Z * string)) acc w :
  Forall (λ e, (Z.max original_size.1 original_size.2 < size_of e)%Z) l →
  for_each l (add_icon_type source_img original_size temp_dir) acc w
  = (Ok acc, w).
Proof.
  induction 1 as [|[[type_key size] desc] l Hlt _ IH]; [done|].
  cbn [for_each]. rewrite bind_run. unfold add_icon_type at 1.
  destruct acc as [icns added]. unfold size_of in Hlt. simpl in Hlt.
  destruct (decide _) as [Hle|_]; [lia|]. exact IH.
Qed.

Lemma generate_sizes_small source_img (sw sh : Z) temp_dir w :
  (Z.max sw sh < 16)%Z →
  generate_sizes source_img (sw, sh) temp_dir w = (Ok (IcnsFile_new, []), w).
Proof.
  intros Hsmall. apply for_each_skips.
  unfold ICON_TYPES, size_of. repeat constructor; simpl; lia.
Qed.

Lemma write_file_run p b w :
  writable p = true → p ∉ dirs w →
  write_file p b w
  = (Ok (), mkWorld (<[p := b]> (files w)) (dirs w) (stdout w)).
Proof.
  intros Hwr Hdir. unfold write_file.
  by rewrite bool_decide_eq_false_2, Hwr.
Qed.

Lemma stat_size_run p b w :
  files w !! p = Some b → stat_size p w = (Ok (length b), w).
Proof. intros Hp. unfold stat_size. by rewrite Hp. Qed.

(** The [try] body after a loop that completed, when the container can
    be serialized and written. *)
Lemma encode_body_run source_img original_size temp_dir output_path w
    icns added w1 bytes :
  generate_sizes source_img original_size temp_dir w
    = (Ok (icns, added), w1) →
  ContainerCodec.encode (media icns) = Some bytes →
  writable output_path = true → output_path ∉ dirs w1 →
  encode_body source_img original_size temp_dir output_path w
  = (Ok output_path,
     mkWorld (<[output_path := bytes]> (files w1)) (dirs w1)
       (stdout w1 ++ [Created output_path; TotalSizes (length added);
                      FileSize (length bytes)])).
Proof.
  intros Hgen Henc Hwr Hdir. unfold encode_body.
  erewrite bind_Ok by exact Hgen. cbv beta iota.
  erewrite bind_Ok
    by (unfold IcnsFile_write; rewrite Henc; by apply write_file_run).
  erewrite bind_Ok by reflexivity.
  erewrite bind_Ok by reflexivity.
  erewrite bind_Ok by (apply stat_size_run; cbn; apply lookup_insert_eq).
  erewrite bind_Ok by reflexivity.
  cbn. by rewrite <- !app_assoc.
Qed.

(** C2, as the script has it: for a source whose larger dimension is
    below 16, no table entry is selected and the loop stores no chunk
    and raises nothing; where the scratch directory can be created and
    the output path can be written, the call returns normally and has
    written a container with zero chunks to the output file. *)
Theorem small_source_empty_container source_img (sw sh : Z) output_path w
    temp_dir header :
  (Z.max sw sh < 16)%Z →
  tmp_candidate = Some temp_dir →
  path_exists temp_dir w = false →
  writable output_path = true →
  output_path ∉ dirs w →
  output_path ≠ temp_dir →
  ContainerCodec.encode [] = Some header →
  entriesUpTo (Z.max sw sh) = []
  ∧ (∀ w0, generate_sizes source_img (sw, sh) temp_dir w0
           = (Ok (IcnsFile_new, []), w0))
  ∧ ∃ w',
      build_icns source_img (sw, sh) output_path w = (Ok output_path, w')
      ∧ files w' !! output_path
        = (if under temp_dir output_path then None else Some header)
      ∧ stdout w'
        = stdout w ++ [Created output_path; TotalSizes 0;
                       FileSize (length header)]
      ∧ ContainerCodec.decode header = Ok [].
Proof.
  intros Hsmall Htmp Hfresh Hwr Hdir Hne Henc.
  split; [|split].
  - unfold entriesUpTo, ICON_TYPES.
    repeat (rewrite filter_cons_False by (unfold size_of; simpl; lia)).
    done.
  - intros w0. by apply generate_sizes_small.
  - eexists. split; [|split; [|split]].
    + unfold build_icns. rewrite bind_run. unfold mkdtemp.
      rewrite Htmp, Hfresh. unfold try_finally.
      rewrite (encode_body_run _ _ _ _ _ IcnsFile_new [] _ header
                 (generate_sizes_small _ _ _ _ _ Hsmall) Henc Hwr);
        [reflexivity|].
      cbn [dirs]. intros [->%elem_of_singleton|Hin]%elem_of_union; done.
    + rewrite files_rmtree. cbn [files]. by rewrite lookup_insert_eq.
    + reflexivity.
    + by apply (CodecFacts.decode_encode []).
Qed.

End SmallSource.

Lemma small_source_empty_container_witness :
  ∃ w',
    @build_icns Toy.pillow Toy.icns_format ("RGBA", (8, 8)%Z) (8, 8)%Z
      "logo.icns" (Toy.world 8 8) = (Ok "logo.icns", w')
    ∧ files w' !! "logo.icns"
      = Some (list_byte_of_string "icns" ++ ["000"; "000"; "000"; "008"]%byte).
Proof.
  edestruct (@small_source_empty_container Toy.pillow Toy.icns_format
               ("RGBA", (8, 8)%Z) 8%Z 8%Z "logo.icns" (Toy.world 8 8)
               "/tmp/tmpk3"
               (list_byte_of_string "icns" ++ ["000"; "000"; "000"; "008"]%byte))
    as (_ & _ & w' & Hrun & Hfile & _); try done.
  exists w'. split; [exact Hrun|]. exact Hfile.
Defined.

(** The claim that an 8x8 source makes the call fail and leaves no output
    file fails: the call returns the output path, and the file is there,
    a header with no chunk. *)
Lemma small_source_returns_normally :
  ∃ w',
    @create_icns Toy.pillow Toy.icns_format "logo.png" None (Toy.world 8 8)
    = (Ok "logo.icns", w')
    ∧ files w' !! "logo.icns"
      = Some (list_byte_of_string "icns" ++ ["000"; "000"; "000"; "008"]%byte)
    ∧ @ContainerCodec.decode Toy.icns_format
        (list_byte_of_string "icns" ++ ["000"; "000"; "000"; "008"]%byte)
      = Ok [].
Proof.
  eexists. split; [vm_compute; reflexivity|].
  split; vm_compute; reflexivity.
Qed.

(** ** The loop completes when the collaborators do *)

Section Completes.
Context `{Collaborators} `{ContainerFormat}.

Lemma for_each_add_icon_type_completes source_img original_size temp_dir
    (l : list (string * Z * string)) :
  ∀ acc w,
    Forall (λ e,
              (size_of e ≤ Z.max original_size.1 original_size.2)%Z →
              is_Some (expected_chunk source_img e)
              ∧ writable (joinpath temp_dir (icon_filename (size_of e))) = true
              ∧ joinpath temp_dir (icon_filename (size_of e)) ∉ dirs w) l →
    ∃ acc' w',
      for_each l (add_icon_type source_img original_size temp_dir) acc w
        = (Ok acc', w')
      ∧ dirs w' = dirs w.
Proof.
  induction l as [|[[type_key size] desc] l IH]; intros [icns added] w Hall.
  - by exists (icns, added), w.
  - apply Forall_cons in Hall as [He Hall]. cbn [for_each].
    unfold size_of in He. simpl in He.
    assert (Hstep : ∃ acc1 w1,
              add_icon_type source_img original_size temp_dir
                (type_key, size, desc) (icns, added) w = (Ok acc1, w1)
              ∧ dirs w1 = dirs w).
    { unfold add_icon_type.
      destruct (decide _) as [Hle|_]; [|by eexists _, _].
      destruct (He Hle) as ([c Hc] & Hwr & Hdir).
      unfold expected_chunk, size_of in Hc. simpl in Hc.
      unfold resize.
      destruct (img_resize source_img (size, size) LANCZOS) as [r|];
        [|done].
      simpl in Hc. destruct (png_bytes r) as [b|] eqn:Hb; [|done].
      erewrite bind_Ok by reflexivity.
      erewrite bind_Ok
        by (unfold save_png; rewrite Hb; by apply write_file_run).
      erewrite bind_Ok
        by (unfold add_media; erewrite bind_Ok;
            [reflexivity|unfold read_file; cbn [files];
                         by rewrite lookup_insert_eq]).
      erewrite bind_Ok by reflexivity.
      by eexists _, _. }
    destruct Hstep as (acc1 & w1 & Hstep & Hdirs).
    rewrite (bind_Ok _ _ _ _ _ Hstep).
    destruct (IH acc1 w1) as (acc' & w' & Hrun & Hdirs').
    { by rewrite Hdirs. }
    exists acc', w'. split; [done|congruence].
Qed.

(** The loop returns whenever, for each selected entry, the resampler
    and the PNG encoder succeed and the scratch file can be written. *)
Lemma generate_sizes_completes source_img original_size temp_dir w :
  Forall (λ e,
            is_Some (expected_chunk source_img e)
            ∧ writable (joinpath temp_dir (icon_filename (size_of e))) = true
            ∧ joinpath temp_dir (icon_filename (size_of e)) ∉ dirs w)
    (entriesUpTo (Z.max original_size.1 original_size.2)) →
  ∃ icns added w',
    generate_sizes source_img original_size temp_dir w
      = (Ok (icns, added), w').
Proof.
  intros Hall.
  destruct (for_each_add_icon_type_completes source_img original_size
              temp_dir ICON_TYPES (IcnsFile_new, []) w)
    as ([icns added] & w' & Hrun & _).
  - apply Forall_forall. intros e He Hle.
    apply (proj1 (Forall_forall _ _) Hall).
    unfold entriesUpTo. by apply list_elem_of_filter.
  - by exists icns, added, w'.
Qed.

End Completes.

(** * Further properties of the script *)

(** ** The exceptions of [create_icns] *)

Section Exceptions.
Context `{Collaborators} `{ContainerFormat}.





End Exceptions.


(** ** [inspect_icns] *)

Section Inspect.
Context `{Collaborators} `{ContainerFormat}.

Lemma IcnsFile_open_world path w r w' :
  IcnsFile_open path w = (r, w') → w' = w.
Proof.
  unfold IcnsFile_open, read_file. rewrite bind_run.
  destruct (files w !! path) as [b|].
  - destruct (ContainerCodec.decode b); by intros [= _ <-].
  - destruct (bool_decide _); by intros [= _ <-].
Qed.

Lemma foldl_dict_set_NoDup {V} (chunks acc : list (string * V)) :
  NoDup acc.*1 → NoDup (foldl (λ d c, dict_set c.1 c.2 d) acc chunks).*1.
Proof.
  revert acc. induction chunks as [|c chunks IH]; intros acc Hacc; simpl.
  - done.
  - apply IH. by apply dict_set_keys_NoDup.
Qed.

Lemma IcnsFile_open_keys_NoDup path w icns w' :
  IcnsFile_open path w = (Ok icns, w') → NoDup (media icns).*1.
Proof.
  unfold IcnsFile_open, read_file. rewrite bind_run.
  destruct (files w !! path) as [b|].
  - destruct (ContainerCodec.decode b); [|discriminate].
    intros [= <- _]. simpl. apply foldl_dict_set_NoDup. constructor.
  - destruct (bool_decide _); discriminate.
Qed.



(** A run of [inspect_icns], by cases on the path and on the parser. *)
Lemma inspect_icns_run path w :
  inspect_icns path w =
  let icns_path := Path_str path in
  if path_exists icns_path w then
    let header := stdout w ++ [Inspecting icns_path; Rule] in
    match IcnsFile_open icns_path w with
    | (Ok icns, _) =>
        (Ok (),
         mkWorld (files w) (dirs w)
           (header
              ++ ((λ c, Entry c.1 (type_info_get c.1) (length c.2))
                    <$> media icns)
              ++ [Rule; TotalEntries (length (media icns))]))
    | (Raise e, _) => (Raise e, mkWorld (files w) (dirs w) header)
    end
  else (Raise (FileNotFoundError ("File not found: " +:+ icns_path)), w).
Proof.
  unfold inspect_icns. cbv zeta. generalize (Path_str path).
  clear path. intros icns_path.
  rewrite bind_run. unfold exists_ at 1.
  destruct (path_exists icns_path w); [|done]. cbn [negb].
  erewrite bind_Ok by reflexivity. erewrite bind_Ok by reflexivity.
  rewrite bind_run. cbn [files dirs stdout].
  assert (Hopen : ∀ o,
            IcnsFile_open icns_path (mkWorld (files w) (dirs w) o)
            = ((IcnsFile_open icns_path w).1, mkWorld (files w) (dirs w) o)).
  { intros o. unfold IcnsFile_open, read_file. rewrite !bind_run.
    cbn [files dirs]. destruct (files w !! icns_path) as [b|].
    - by destruct (ContainerCodec.decode b).
    - by destruct (bool_decide _). }
  rewrite Hopen.
  destruct (IcnsFile_open icns_path w) as [[icns|e] w1]; cbn [fst].
  - rewrite bind_run, report_entries_run. cbn [files dirs stdout].
    erewrite bind_Ok by reflexivity.
    unfold print. cbn [files dirs stdout]. do 2 f_equal.
    rewrite <- !app_assoc. reflexivity.
  - do 2 f_equal. rewrite <- !app_assoc. reflexivity.
Qed.

(** X4: [inspect_icns] only reads: whatever the outcome, the files and
    directories are exactly as before the call. *)
Theorem inspect_icns_read_only icns_path w r w' :
  inspect_icns icns_path w = (r, w') →
  files w' = files w ∧ dirs w' = dirs w.
Proof.
  rewrite inspect_icns_run. cbv zeta.
  destruct (path_exists (Path_str icns_path) w).
  - destruct (IcnsFile_open (Path_str icns_path) w) as [[icns|e] w1];
      by intros [= _ <-].
  - by intros [= _ <-].
Qed.

(** X5: a call of [inspect_icns] that returns has printed the heading
    and a rule, then one line per chunk of the container with its key,
    the label of the key and the byte count of its payload, then a rule
    and the total, which is the number of chunk lines; no key is
    reported twice. *)
Theorem inspect_icns_report icns_path w w' :
  inspect_icns icns_path w = (Ok (), w') →
  ∃ icns,
    IcnsFile_open (Path_str icns_path) w = (Ok icns, w)
    ∧ NoDup (media icns).*1
    ∧ ∃ entries,
        entries = (λ c, Entry c.1 (type_info_get c.1) (length c.2))
                    <$> media icns
        ∧ stdout w' =
            stdout w ++ [Inspecting (Path_str icns_path); Rule] ++ entries
              ++ [Rule; TotalEntries (length entries)].
Proof.
  rewrite inspect_icns_run. cbv zeta.
  destruct (path_exists (Path_str icns_path) w); [|done].
  destruct (IcnsFile_open (Path_str icns_path) w) as [[icns|e] w1] eqn:Hopen;
    [|done].
  intros [= <-]. exists icns.
  pose proof (IcnsFile_open_world _ _ _ _ Hopen) as ->.
  split; [done|]. split; [by eapply IcnsFile_open_keys_NoDup|].
  eexists. split; [reflexivity|].
  cbn [stdout]. by rewrite length_fmap, <- !app_assoc.
Qed.


End Inspect.

Lemma inspect_icns_read_only_witness :
  ∃ w',
    @inspect_icns Toy.icns_format "logo.png" (Toy.world 64 64)
    = (Raise MalformedHeader, w')
    ∧ files w' = files (Toy.world 64 64) ∧ dirs w' = dirs (Toy.world 64 64).
Proof.
  eexists. split; [vm_compute; reflexivity|].
  eapply (@inspect_icns_read_only Toy.icns_format "logo.png"
            (Toy.world 64 64)).
  vm_compute. reflexivity.
Defined.

Lemma inspect_icns_report_witness :
  let w1 :=
    (@create_icns Toy.pillow Toy.icns_format "logo.png" None
       (Toy.world 32 32)).2 in
  ∃ w2 icns,
    @inspect_icns Toy.icns_format "logo.icns" w1 = (Ok (), w2)
    ∧ @IcnsFile_open Toy.icns_format "logo.icns" w1 = (Ok icns, w1)
    ∧ NoDup (media icns).*1.
Proof.
  intros w1.
  edestruct (@inspect_icns_report Toy.icns_format "logo.icns" w1)
    as (icns & Hopen & Hnd & _); [vm_compute; reflexivity|].
  eexists _, icns. split; [vm_compute; reflexivity|].
  split; [exact Hopen|exact Hnd].
Defined.


(** ** What a successful call prints *)

Section Transcript.
Context `{Collaborators} `{ContainerFormat}.




End Transcript.


(** ** The selection is an initial part of the table *)

Section Selection.
Context `{Collaborators}.

Lemma ICON_TYPES_ascending : ascending ICON_TYPES.
Proof.
  unfold ICON_TYPES. simpl.
  repeat (split;
            [repeat (apply Forall_cons; split; [unfold size_of; simpl; lia|]);
             apply Forall_nil|]).
  all: exact I.
Qed.

Lemma filter_ascending_nil d (l : list (string * Z * string)) :
  Forall (λ e, (d < size_of e)%Z) l →
  filter (λ e, (size_of e ≤ d)%Z) l = [].
Proof.
  induction 1 as [|e l He _ IH]; [done|].
  rewrite filter_cons_False by lia. exact IH.
Qed.

(** In an ascending table, the entries up to [d] are an initial part of
    the entries up to any [d'] that is at least [d], and of the table. *)
Lemma filter_ascending_prefix (d d' : Z) (l : list (string * Z * string)) :
  ascending l → (d ≤ d')%Z →
  filter (λ e, (size_of e ≤ d)%Z) l
    `prefix_of` filter (λ e, (size_of e ≤ d')%Z) l
  ∧ filter (λ e, (size_of e ≤ d)%Z) l `prefix_of` l.
Proof.
  intros Hasc Hd. induction l as [|e l IH]; [done|].
  destruct Hasc as [Hle Hasc]. destruct (IH Hasc) as [IH1 IH2].
  destruct (decide (size_of e ≤ d)%Z) as [He|He].
  - rewrite !filter_cons_True by lia. split; by apply prefix_cons.
  - rewrite (filter_cons_False _ e l He), filter_ascending_nil.
    + split; apply prefix_nil.
    + eapply Forall_impl; [exact Hle|]. simpl. intros e' He'. lia.
Qed.

(** X8: the chunks of a container are always those of an initial part of
    the table: a key is stored only together with the keys of all
    smaller sizes, and a source with a larger maximal dimension gets the
    chunks of a smaller one and possibly more after them. *)
Theorem container_keys_initial_part source_img original_size temp_dir
    w icns added w' source_img2 original_size2 temp_dir2 w2 icns2 added2 w2' :
  generate_sizes source_img original_size temp_dir w
    = (Ok (icns, added), w') →
  generate_sizes source_img2 original_size2 temp_dir2 w2
    = (Ok (icns2, added2), w2') →
  (Z.max original_size.1 original_size.2
   ≤ Z.max original_size2.1 original_size2.2)%Z →
  (media icns).*1 `prefix_of` (type_key_of <$> ICON_TYPES)
  ∧ (media icns).*1 `prefix_of` (media icns2).*1.
Proof.
  intros Hrun1 Hrun2 Hle.
  apply generate_sizes_Ok in Hrun1 as (Hall1 & _).
  apply generate_sizes_Ok in Hrun2 as (Hall2 & _).
  rewrite (expected_chunks_keys _ _ _ Hall1),
    (expected_chunks_keys _ _ _ Hall2).
  destruct (filter_ascending_prefix _ _ ICON_TYPES ICON_TYPES_ascending Hle)
    as [[k1 Hk1] [k2 Hk2]].
  unfold entriesUpTo. split.
  - exists (type_key_of <$> k2). rewrite <- fmap_app. by f_equal.
  - exists (type_key_of <$> k1). rewrite <- fmap_app. by f_equal.
Qed.

End Selection.

Lemma container_keys_initial_part_witness :
  ∃ icns added w' icns2 added2 w2',
    @generate_sizes Toy.pillow ("RGBA", (40, 20)%Z) (40, 20)%Z "/tmp/tmpk3"
      (Toy.world 40 20) = (Ok (icns, added), w')
    ∧ @generate_sizes Toy.pillow ("RGBA", (100, 300)%Z) (100, 300)%Z
        "/tmp/tmpk3" (Toy.world 100 300) = (Ok (icns2, added2), w2')
    ∧ (media icns).*1 `prefix_of` (media icns2).*1.
Proof.
  eexists _, _, _, _, _, _.
  split; [vm_compute; reflexivity|]. split; [vm_compute; reflexivity|].
  eapply (@container_keys_initial_part Toy.pillow
            ("RGBA", (40, 20)%Z) (40, 20)%Z "/tmp/tmpk3" (Toy.world 40 20)
            _ _ _
            ("RGBA", (100, 300)%Z) (100, 300)%Z "/tmp/tmpk3"
            (Toy.world 100 300)).
  - vm_compute. reflexivity.
  - vm_compute. reflexivity.
  - simpl. lia.
Defined.

(** ** An input that is already a container *)

Section Overwrite.
Context `{Collaborators} `{ContainerFormat}.

(** X9: when the input path, in the spelling of [Path], already has
    the extension ".icns" and no output path is given, the output path
    is the input path itself: a call that returns has replaced the file
    it read by the container built from it, unless the file lies in the
    scratch directory. *)
Theorem icns_input_is_overwritten input_path base w p w' :
  Path_str input_path = base +:+ ".icns" → has_name base →
  create_icns input_path None w = (Ok p, w') →
  p = Path_str input_path
  ∧ ∃ b img0 temp_dir chunks bytes,
      files w !! p = Some b
      ∧ Image_open b = Some img0
      ∧ tmp_candidate = Some temp_dir
      ∧ (let source_img :=
           if decide (img_mode img0 ≠ "RGBA")
           then img_convert img0 "RGBA" else img0 in
         Forall2 (λ e c, expected_chunk source_img e = Some c)
           (entriesUpTo
              (Z.max (img_size source_img).1 (img_size source_img).2))
           chunks)
      ∧ ContainerCodec.encode chunks = Some bytes
      ∧ files w' !! p = if under temp_dir p then None else Some bytes.
Proof.
  intros Hpath Hname
    (b & img0 & temp_dir & chunks & bytes & Hout & Hb & Himg & Htmp
     & Hall & Henc & Hfile)%create_icns_Ok.
  rewrite Hpath in Hout.
  change (base +:+ ".icns") with (base +:+ "." +:+ "icns") in Hout.
  rewrite with_suffix_replaces in Hout by done.
  injection Hout as Hp.
  assert (p = Path_str input_path) as ->; [by rewrite Hpath|].
  split; [done|]. exists b, img0, temp_dir, chunks, bytes. done.
Qed.

End Overwrite.

Lemma icns_input_is_overwritten_witness :
  let w :=
    mkWorld {[ "logo.icns" := Toy.two_bytes 16 ++ Toy.two_bytes 16 ]} ∅ [] in
  ∃ w' bytes,
    @create_icns Toy.pillow Toy.icns_format "./logo.icns" None w
    = (Ok "logo.icns", w')
    ∧ @ContainerCodec.encode Toy.icns_format
        [("icp4", Toy.two_bytes 16 ++ Toy.two_bytes 16)] = Some bytes
    ∧ files w' !! "logo.icns" = Some bytes.
Proof.
  intros w.
  edestruct (@icns_input_is_overwritten Toy.pillow Toy.icns_format
               "./logo.icns" "logo" w)
    as (Hp & b & img0 & temp_dir & chunks & bytes & _ & _ & Htmp & _ & _
        & Hfile);
    [reflexivity|by unfold has_name|vm_compute; reflexivity|].
  eexists _, _. split; [vm_compute; reflexivity|].
  split; [vm_compute; reflexivity|]. vm_compute. reflexivity.
Defined.
